(** * bottom-line: the projection, valuation, sensitivity and LBO engine

    A shallow embedding of the calculation functions of the server's
    routes module ([calculateProjections], [calculateValuation],
    [calculateTradingComps], [calculateBreakdowns], [calculateSensitivity],
    and the LBO debt schedule with its Newton-Raphson [calculateIRR]),
    of the figures the export route writes on its cover and comparables
    sheets, of the portfolio statistics and of the choice of the top
    model of the insights, followed by the properties the specification
    states about them and by further properties of the same code.

    Numbers.  A JavaScript number is modelled by [num]: a rational, or one
    of the three special values [+Infinity], [-Infinity] and [NaN].  The
    arithmetic on finite values is exact (no rounding to 53 bits and no
    overflow), and the sign of zero is not tracked; the special values
    follow IEEE 754 as JavaScript applies it (division by zero, [NaN]
    propagation, comparisons with [NaN] false).  [Math.pow] is exact at
    integer exponents; at any other argument it is the parameter
    [pow_rest] of the development, about which nothing is assumed.

    Records typed [any] in the source.  A numeric field [f] of the model
    record holds [Number(f)], the value [safeNumber] computes first: [NaN]
    when the field is absent or not numeric. *)

From Stdlib Require Import QArith Qround Qabs Qpower ZArith List Bool Lia Lqa.
From Stdlib Require Import Qreduction Qcanon String DecimalString.
Import ListNotations.

Set Implicit Arguments.

(** ** Numbers *)

Inductive num : Type :=
| Fin (q : Q)
| PInf
| NInf
| NaN.

Arguments Fin q%_Q.

Declare Scope num_scope.
Delimit Scope num_scope with num.
Bind Scope num_scope with num.

Definition isNaN (x : num) : bool :=
  match x with NaN => true | _ => false end.

Definition isFinite (x : num) : bool :=
  match x with Fin _ => true | _ => false end.

(** Sign of a rational, as the comparison with zero. *)
Definition Qsign (q : Q) : comparison := (q ?= 0)%Q.

Definition num_neg (x : num) : num :=
  match x with
  | Fin q => Fin (- q)
  | PInf => NInf
  | NInf => PInf
  | NaN => NaN
  end.

Definition num_add (x y : num) : num :=
  match x, y with
  | NaN, _ | _, NaN => NaN
  | Fin a, Fin b => Fin (a + b)
  | PInf, NInf | NInf, PInf => NaN
  | PInf, _ | _, PInf => PInf
  | NInf, _ | _, NInf => NInf
  end.

Definition num_sub (x y : num) : num := num_add x (num_neg y).

(** An infinity of the sign of [s] times the sign of a finite factor
    ([Eq] is a zero factor: [Infinity * 0] is [NaN]). *)
Definition inf_signed (up : bool) (s : comparison) : num :=
  match s with
  | Eq => NaN
  | Gt => if up then PInf else NInf
  | Lt => if up then NInf else PInf
  end.

Definition num_mul (x y : num) : num :=
  match x, y with
  | NaN, _ | _, NaN => NaN
  | Fin a, Fin b => Fin (a * b)
  | Fin a, PInf | PInf, Fin a => inf_signed true (Qsign a)
  | Fin a, NInf | NInf, Fin a => inf_signed false (Qsign a)
  | PInf, PInf | NInf, NInf => PInf
  | PInf, NInf | NInf, PInf => NInf
  end.

Definition num_div (x y : num) : num :=
  match x, y with
  | NaN, _ | _, NaN => NaN
  | Fin a, Fin b =>
      match Qsign b with
      | Eq => inf_signed true (Qsign a)
      | _ => Fin (a / b)
      end
  | Fin _, _ => Fin 0
  | PInf, Fin b => match Qsign b with Lt => NInf | _ => PInf end
  | NInf, Fin b => match Qsign b with Lt => PInf | _ => NInf end
  | _, _ => NaN
  end.

Definition num_ltb (x y : num) : bool :=
  match x, y with
  | NaN, _ | _, NaN => false
  | Fin a, Fin b => match (a ?= b)%Q with Lt => true | _ => false end
  | NInf, NInf | PInf, _ | _, NInf => false
  | NInf, _ | _, PInf => true
  end.

Definition num_eqb (x y : num) : bool :=
  match x, y with
  | Fin a, Fin b => Qeq_bool a b
  | PInf, PInf | NInf, NInf => true
  | _, _ => false
  end.

Definition num_leb (x y : num) : bool := num_ltb x y || num_eqb x y.
Definition num_gtb (x y : num) : bool := num_ltb y x.
Definition num_geb (x y : num) : bool := num_leb y x.

(** [x !== y] on numbers. *)
Definition num_neqb (x y : num) : bool := negb (num_eqb x y).

Notation "x + y" := (num_add x y) : num_scope.
Notation "x - y" := (num_sub x y) : num_scope.
Notation "x * y" := (num_mul x y) : num_scope.
Notation "x / y" := (num_div x y) : num_scope.
Notation "- x" := (num_neg x) : num_scope.
Notation "x <? y" := (num_ltb x y) : num_scope.
Notation "x <=? y" := (num_leb x y) : num_scope.
Notation "x >? y" := (num_gtb x y) : num_scope.
Notation "x >=? y" := (num_geb x y) : num_scope.

(** The order and equality of numbers as propositions. *)
Definition num_lt (x y : num) : Prop := num_ltb x y = true.
Definition num_le (x y : num) : Prop := num_leb x y = true.
Definition num_eq (x y : num) : Prop := num_eqb x y = true.

Notation "x < y" := (num_lt x y) : num_scope.
Notation "x <= y" := (num_le x y) : num_scope.
Notation "x == y" := (num_eq x y) : num_scope.

(** [Math.max] and [Math.min] of two arguments: [NaN] when either is. *)
Definition Math_max (x y : num) : num :=
  match x, y with
  | NaN, _ | _, NaN => NaN
  | _, _ => if num_ltb x y then y else x
  end.

Definition Math_min (x y : num) : num :=
  match x, y with
  | NaN, _ | _, NaN => NaN
  | _, _ => if num_ltb y x then y else x
  end.

Definition Math_abs (x : num) : num :=
  match x with
  | Fin q => Fin (Qabs q)
  | PInf | NInf => PInf
  | NaN => NaN
  end.

(** [Math.round]: the nearest integer, a tie going up. *)
Definition Math_round (x : num) : num :=
  match x with
  | Fin q => Fin (inject_Z (Qfloor (q + (1 # 2))))
  | _ => x
  end.

(** A number is falsy when it is zero or [NaN]; [a || b] on numbers. *)
Definition truthy (x : num) : bool :=
  match x with
  | Fin q => negb (Qeq_bool q 0)
  | NaN => false
  | _ => true
  end.

Definition or_else (x y : num) : num := if truthy x then x else y.

(** A non-negative integer as a number (array indices and lengths). *)
Definition of_nat (n : nat) : num := Fin (inject_Z (Z.of_nat n)).

(** A rational is an integer when its reduced denominator is one. *)
Definition Qis_int (q : Q) : bool := Pos.eqb (Qden (Qred q)) 1.

(** [Math.pow] at a finite base and an integer exponent. *)
Definition pow_int (b : Q) (n : Z) : num :=
  if Qeq_bool b 0 && (n <? 0)%Z then PInf else Fin (b ^ n).

Local Open Scope num_scope.

(** ** Data model *)

(** One peer of the trading-comps table ([TradingCompEntry]). *)
Record TradingCompEntry : Type := mkComp {
  comp_revenue : num;
  comp_ebitda : num;
  comp_netIncome : num;
  comp_ev : num;
  comp_marketCap : num
}.

(** The assumptions record, the [model: any] argument of every
    calculator.  [useMidYearConvention] is [None] when the field is
    absent. *)
Record Model : Type := mkModel {
  startingRevenue : num;
  growthRate : num;
  cogsMargin : num;
  opexMargin : num;
  daMargin : num;
  interestRate : num;
  debtBalance : num;
  cashBalance : num;
  sharesOutstanding : num;
  taxRate : num;
  arDays : num;
  inventoryDays : num;
  apDays : num;
  capexPercent : num;
  maintenanceCapexPercent : num;
  wacc : num;
  terminalGrowthRate : num;
  exitMultiple : num;
  useMidYearConvention : option bool;
  tradingComps : list TradingCompEntry
}.

(** [YearProjection], field for field. *)
Record YearProjection : Type := mkYear {
  year : nat;
  revenue : num;
  cogs : num;
  grossProfit : num;
  opex : num;
  ebitda : num;
  da : num;
  ebit : num;
  interest : num;
  ebt : num;
  tax : num;
  netIncome : num;
  revenueGrowth : num;
  ebitdaMargin : num;
  netMargin : num;
  accountsReceivable : num;
  inventory : num;
  accountsPayable : num;
  netWorkingCapital : num;
  changeInNwc : num;
  capex : num;
  maintenanceCapex : num;
  growthCapex : num;
  nopat : num;
  ufcf : num;
  fcf : num;
  discountFactor : num;
  pvOfFcf : num
}.

(** [ValuationOutput]. *)
Record ValuationOutput : Type := mkValuation {
  enterpriseValue : num;
  equityValue : num;
  terminalValue : num;
  impliedMultiple : num;
  terminalValueGordon : num;
  terminalValueExitMultiple : num;
  sumPvFcf : num;
  pvOfTerminalValue : num;
  netDebt : num;
  equityValuePerShare : num;
  val_sharesOutstanding : num
}.

(** [TradingCompsOutput]. *)
Record TradingCompsOutput : Type := mkCompsOutput {
  avgEvEbitda : num;
  avgPe : num;
  impliedEv : num;
  impliedEquityValue : num
}.

(** ** safeNumber *)

Definition safeNumber (value fallback : num) : num :=
  if isNaN value || negb (isFinite value) then fallback else value.

(** ** calculateProjections *)

(** The body of the [for (let year = 1; year <= 5; year++)] loop, run
    [n] more times from the loop state [year], [revenue], [prevNwc]. *)
Fixpoint projectionLoop (growthRate cogsMargin opexMargin daMargin interestRate
    debtBalance taxRate arDays inventoryDays apDays capexPercent
    maintenanceCapexPercent : num)
    (n year : nat) (revenue prevNwc : num) : list YearProjection :=
  match n with
  | O => []
  | S n' =>
    let cogs := Math_round (revenue * (cogsMargin / Fin 100)) in
    let grossProfit := revenue - cogs in
    let opex := Math_round (revenue * (opexMargin / Fin 100)) in
    let ebitda := grossProfit - opex in
    let da := Math_round (revenue * (daMargin / Fin 100)) in
    let ebit := ebitda - da in
    let interest := Math_round (debtBalance * (interestRate / Fin 100)) in
    let ebt := ebit - interest in
    let tax := if ebt >? Fin 0 then Math_round (ebt * (taxRate / Fin 100))
               else Fin 0 in
    let netIncome := ebt - tax in
    let accountsReceivable := Math_round ((revenue / Fin 365) * arDays) in
    let inventory := Math_round ((cogs / Fin 365) * inventoryDays) in
    let accountsPayable := Math_round ((cogs / Fin 365) * apDays) in
    let netWorkingCapital := accountsReceivable + inventory - accountsPayable in
    let changeInNwc := if Nat.eqb year 1 then netWorkingCapital
                       else netWorkingCapital - prevNwc in
    let capex := Math_round (revenue * (capexPercent / Fin 100)) in
    let maintenanceCapex :=
      Math_round (revenue * (maintenanceCapexPercent / Fin 100)) in
    let growthCapex := capex - maintenanceCapex in
    let nopat := Math_round (ebit * (Fin 1 - taxRate / Fin 100)) in
    let ufcf := nopat + da - changeInNwc - capex in
    let safeRevenue := if revenue >? Fin 0 then revenue else Fin 1 in
    let p := {|
      year := year; revenue := revenue; cogs := cogs;
      grossProfit := grossProfit; opex := opex; ebitda := ebitda; da := da;
      ebit := ebit; interest := interest; ebt := ebt; tax := tax;
      netIncome := netIncome;
      revenueGrowth := if Nat.eqb year 1 then Fin 0 else growthRate;
      ebitdaMargin := (ebitda / safeRevenue) * Fin 100;
      netMargin := (netIncome / safeRevenue) * Fin 100;
      accountsReceivable := accountsReceivable; inventory := inventory;
      accountsPayable := accountsPayable;
      netWorkingCapital := netWorkingCapital; changeInNwc := changeInNwc;
      capex := capex; maintenanceCapex := maintenanceCapex;
      growthCapex := growthCapex;
      nopat := nopat; ufcf := ufcf;
      fcf := ufcf; discountFactor := Fin 0; pvOfFcf := Fin 0 |} in
    let prevNwc' := netWorkingCapital in
    let revenue1 := Math_round (revenue * (Fin 1 + growthRate / Fin 100)) in
    let revenue' := if revenue1 <=? Fin 0 then Fin 1 else revenue1 in
    p :: projectionLoop growthRate cogsMargin opexMargin daMargin interestRate
           debtBalance taxRate arDays inventoryDays apDays capexPercent
           maintenanceCapexPercent n' (S year) revenue' prevNwc'
  end.

Definition calculateProjections (model : Model) : list YearProjection :=
  let startingRevenue := safeNumber (startingRevenue model) (Fin 1000000) in
  let growthRate := safeNumber (growthRate model) (Fin 0) in
  let cogsMargin :=
    Math_max (Fin 0) (Math_min (Fin 100) (safeNumber (cogsMargin model) (Fin 0))) in
  let opexMargin :=
    Math_max (Fin 0) (Math_min (Fin 100) (safeNumber (opexMargin model) (Fin 0))) in
  let daMargin :=
    Math_max (Fin 0) (Math_min (Fin 100) (safeNumber (daMargin model) (Fin 5))) in
  let interestRate := Math_max (Fin 0) (safeNumber (interestRate model) (Fin 5)) in
  let debtBalance := safeNumber (debtBalance model) (Fin 0) in
  let taxRate :=
    Math_max (Fin 0) (Math_min (Fin 100) (safeNumber (taxRate model) (Fin 21))) in
  let arDays := safeNumber (arDays model) (Fin 45) in
  let inventoryDays := safeNumber (inventoryDays model) (Fin 60) in
  let apDays := safeNumber (apDays model) (Fin 30) in
  let capexPercent := safeNumber (capexPercent model) (Fin 5) in
  let maintenanceCapexPercent :=
    safeNumber (maintenanceCapexPercent model) (Fin 2) in
  let revenue := if startingRevenue >? Fin 0 then startingRevenue else Fin 1 in
  projectionLoop growthRate cogsMargin opexMargin daMargin interestRate
    debtBalance taxRate arDays inventoryDays apDays capexPercent
    maintenanceCapexPercent 5 1 revenue (Fin 0).

(** The spec's concrete scenario (section 8), under the full-year
    convention. *)
Definition scenario_model : Model := {|
  startingRevenue := Fin 1000000; growthRate := Fin 15;
  cogsMargin := Fin 40; opexMargin := Fin 30; daMargin := Fin 5;
  interestRate := Fin 5; debtBalance := Fin 0; cashBalance := Fin 0;
  sharesOutstanding := Fin 1000000; taxRate := Fin 21;
  arDays := Fin 45; inventoryDays := Fin 60; apDays := Fin 30;
  capexPercent := Fin 5; maintenanceCapexPercent := Fin 2;
  wacc := Fin 10; terminalGrowthRate := Fin 2; exitMultiple := Fin 12;
  useMidYearConvention := Some false; tradingComps := [] |}.

(** ** Assignments to the fields of a projection

    [calculateValuation] writes three fields of each element of the array
    it is given; an assignment [p.f = v] is the record with [f] replaced. *)

Definition set_discountFactor (p : YearProjection) (v : num) : YearProjection :=
  {| year := year p; revenue := revenue p; cogs := cogs p;
     grossProfit := grossProfit p; opex := opex p; ebitda := ebitda p;
     da := da p; ebit := ebit p; interest := interest p; ebt := ebt p;
     tax := tax p; netIncome := netIncome p;
     revenueGrowth := revenueGrowth p; ebitdaMargin := ebitdaMargin p;
     netMargin := netMargin p; accountsReceivable := accountsReceivable p;
     inventory := inventory p; accountsPayable := accountsPayable p;
     netWorkingCapital := netWorkingCapital p; changeInNwc := changeInNwc p;
     capex := capex p; maintenanceCapex := maintenanceCapex p;
     growthCapex := growthCapex p; nopat := nopat p; ufcf := ufcf p;
     fcf := fcf p; discountFactor := v; pvOfFcf := pvOfFcf p |}.

Definition set_fcf (p : YearProjection) (v : num) : YearProjection :=
  {| year := year p; revenue := revenue p; cogs := cogs p;
     grossProfit := grossProfit p; opex := opex p; ebitda := ebitda p;
     da := da p; ebit := ebit p; interest := interest p; ebt := ebt p;
     tax := tax p; netIncome := netIncome p;
     revenueGrowth := revenueGrowth p; ebitdaMargin := ebitdaMargin p;
     netMargin := netMargin p; accountsReceivable := accountsReceivable p;
     inventory := inventory p; accountsPayable := accountsPayable p;
     netWorkingCapital := netWorkingCapital p; changeInNwc := changeInNwc p;
     capex := capex p; maintenanceCapex := maintenanceCapex p;
     growthCapex := growthCapex p; nopat := nopat p; ufcf := ufcf p;
     fcf := v; discountFactor := discountFactor p; pvOfFcf := pvOfFcf p |}.

Definition set_pvOfFcf (p : YearProjection) (v : num) : YearProjection :=
  {| year := year p; revenue := revenue p; cogs := cogs p;
     grossProfit := grossProfit p; opex := opex p; ebitda := ebitda p;
     da := da p; ebit := ebit p; interest := interest p; ebt := ebt p;
     tax := tax p; netIncome := netIncome p;
     revenueGrowth := revenueGrowth p; ebitdaMargin := ebitdaMargin p;
     netMargin := netMargin p; accountsReceivable := accountsReceivable p;
     inventory := inventory p; accountsPayable := accountsPayable p;
     netWorkingCapital := netWorkingCapital p; changeInNwc := changeInNwc p;
     capex := capex p; maintenanceCapex := maintenanceCapex p;
     growthCapex := growthCapex p; nopat := nopat p; ufcf := ufcf p;
     fcf := fcf p; discountFactor := discountFactor p; pvOfFcf := v |}.

(** [model.useMidYearConvention !== false]. *)
Definition useMidYear_of (model : Model) : bool :=
  match useMidYearConvention model with
  | Some false => false
  | _ => true
  end.

(** [projections[projections.length - 1]], read only where the array is
    known to be non-empty; [d] stands for the [undefined] of an empty
    array. *)
Definition lastOf (d : YearProjection) (ps : list YearProjection) : YearProjection :=
  last ps d.

Section Engine.

(** [Math.pow] away from the finite integer exponents. *)
Variable pow_rest : num -> num -> num.

Definition Math_pow (b e : num) : num :=
  match b, e with
  | Fin x, Fin y => if Qis_int y then pow_int x (Qfloor y) else pow_rest b e
  | _, _ => pow_rest b e
  end.

(** ** calculateValuation *)

(** The discount period of the element at index [idx]. *)
Definition discountPeriod (useMidYear : bool) (idx : nat) : num :=
  if useMidYear then of_nat idx + Fin 0.5 else of_nat idx + Fin 1.

(** [const tvDiscountPeriod = useMidYear ? projections.length :
    projections.length]. *)
Definition tvDiscountPeriod (useMidYear : bool) (length : nat) : num :=
  if useMidYear then of_nat length else of_nat length.

(** The callback of [projections.forEach((p, idx) => ...)]: the element
    after its three assignments, and the new value of [sumPvOfFcf]. *)
Definition discountStep (wacc : num) (useMidYear : bool) (idx : nat)
    (p : YearProjection) (sumPvOfFcf : num) : YearProjection * num :=
  let discountBase := Fin 1 + wacc in
  let discountPeriod := discountPeriod useMidYear idx in
  let factor :=
    if discountBase >? Fin 0 then Fin 1 / Math_pow discountBase discountPeriod
    else Fin 0 in
  let p := set_discountFactor p (if isFinite factor then factor else Fin 0) in
  let p := set_fcf p (ufcf p) in
  let p := set_pvOfFcf p (fcf p * discountFactor p) in
  (p, sumPvOfFcf + (if isFinite (pvOfFcf p) then pvOfFcf p else Fin 0)).

(** The [forEach] from index [idx] on: the array after the call and the
    final [sumPvOfFcf]. *)
Fixpoint discountLoop (wacc : num) (useMidYear : bool) (idx : nat)
    (ps : list YearProjection) (sumPvOfFcf : num)
    : list YearProjection * num :=
  match ps with
  | [] => ([], sumPvOfFcf)
  | p :: rest =>
    let '(p', sum') := discountStep wacc useMidYear idx p sumPvOfFcf in
    let '(rest', total) := discountLoop wacc useMidYear (S idx) rest sum' in
    (p' :: rest', total)
  end.

Definition guard (x : num) : num := if isFinite x then x else Fin 0.

(** [calculateValuation(model, projections)]: the returned record, and
    the [projections] array as the call leaves it. *)
Definition calculateValuation (model : Model) (projections : list YearProjection)
    : ValuationOutput * list YearProjection :=
  let wacc := Math_max (Fin 0.01) (safeNumber (wacc model) (Fin 10) / Fin 100) in
  let terminalGrowth := safeNumber (terminalGrowthRate model) (Fin 2) / Fin 100 in
  let exitMultiple := safeNumber (exitMultiple model) (Fin 12) in
  let debt := safeNumber (debtBalance model) (Fin 0) in
  let cash := safeNumber (cashBalance model) (Fin 0) in
  let sharesOutstanding := safeNumber (sharesOutstanding model) (Fin 1000000) in
  let useMidYear := useMidYear_of model in
  match projections with
  | [] =>
    ({| enterpriseValue := Fin 0; equityValue := Fin 0; terminalValue := Fin 0;
        impliedMultiple := Fin 0; terminalValueGordon := Fin 0;
        terminalValueExitMultiple := Fin 0; sumPvFcf := Fin 0;
        pvOfTerminalValue := Fin 0; netDebt := Fin 0;
        equityValuePerShare := Fin 0; val_sharesOutstanding := Fin 0 |},
     projections)
  | first :: _ =>
    let '(projections, sumPvOfFcf) :=
      discountLoop wacc useMidYear 0 projections (Fin 0) in
    let lastProjection := lastOf first projections in
    let lastUfcf := ufcf lastProjection in
    let lastEbitda := or_else (ebitda lastProjection) (Fin 1) in
    let waccMinusGrowth := wacc - terminalGrowth in
    let terminalValueGordon :=
      if waccMinusGrowth >? Fin 0.001
      then (lastUfcf * (Fin 1 + terminalGrowth)) / waccMinusGrowth
      else Fin 0 in
    let terminalValueExitMultiple := lastEbitda * exitMultiple in
    let terminalValue := terminalValueGordon in
    let tvDiscountPeriod := tvDiscountPeriod useMidYear (List.length projections) in
    let pvOfTerminalValue :=
      if wacc >? Fin 0
      then terminalValue / Math_pow (Fin 1 + wacc) tvDiscountPeriod
      else Fin 0 in
    let enterpriseValue :=
      if isFinite (sumPvOfFcf + pvOfTerminalValue)
      then sumPvOfFcf + pvOfTerminalValue else Fin 0 in
    let netDebt := debt - cash in
    let equityValue := enterpriseValue - netDebt in
    let equityValuePerShare :=
      if sharesOutstanding >? Fin 0 then equityValue / sharesOutstanding
      else Fin 0 in
    let impliedMultiple :=
      if num_neqb lastEbitda (Fin 0) then enterpriseValue / lastEbitda
      else Fin 0 in
    ({| enterpriseValue := guard enterpriseValue;
        equityValue := guard equityValue;
        terminalValue := guard terminalValue;
        impliedMultiple := guard impliedMultiple;
        terminalValueGordon := guard terminalValueGordon;
        terminalValueExitMultiple := guard terminalValueExitMultiple;
        sumPvFcf := guard sumPvOfFcf;
        pvOfTerminalValue := guard pvOfTerminalValue;
        netDebt := guard netDebt;
        equityValuePerShare := guard equityValuePerShare;
        val_sharesOutstanding := sharesOutstanding |},
     projections)
  end.

(** ** calculateTradingComps *)

(** The EV/EBITDA ratio the first [map] gives a peer. *)
Definition evEbitdaOf (c : TradingCompEntry) : num :=
  let ebitda := safeNumber (comp_ebitda c) (Fin 1) in
  let ev := safeNumber (comp_ev c) (Fin 0) in
  if num_neqb ebitda (Fin 0) then ev / ebitda else Fin 0.

(** The P/E ratio the second [map] gives a peer. *)
Definition peOf (c : TradingCompEntry) : num :=
  let netIncome := safeNumber (comp_netIncome c) (Fin 1) in
  let marketCap := safeNumber (comp_marketCap c) (Fin 0) in
  if num_neqb netIncome (Fin 0) then marketCap / netIncome else Fin 0.

(** The predicate of both [filter]s: [isFinite(v) && v > 0]. *)
Definition positiveFinite (v : num) : bool := isFinite v && (v >? Fin 0).

Definition evEbitdas (comps : list TradingCompEntry) : list num :=
  filter positiveFinite (map evEbitdaOf comps).

Definition pes (comps : list TradingCompEntry) : list num :=
  filter positiveFinite (map peOf comps).

(** [xs.reduce((a, b) => a + b, 0)]. *)
Definition sumOf (xs : list num) : num := fold_left num_add xs (Fin 0).

(** [xs.length ? sum / xs.length : 0]. *)
Definition average (xs : list num) : num :=
  match xs with
  | [] => Fin 0
  | _ => sumOf xs / of_nat (List.length xs)
  end.

Definition calculateTradingComps (model : Model)
    (projections : list YearProjection) : TradingCompsOutput :=
  let comps := tradingComps model in
  match comps, projections with
  | [], _ | _, [] =>
    {| avgEvEbitda := Fin 0; avgPe := Fin 0; impliedEv := Fin 0;
       impliedEquityValue := Fin 0 |}
  | _ :: _, first :: _ =>
    let avgEvEbitda := average (evEbitdas comps) in
    let avgPe := average (pes comps) in
    let lastProjection := lastOf first projections in
    let lastEbitda := or_else (ebitda lastProjection) (Fin 0) in
    let impliedEv := lastEbitda * avgEvEbitda in
    let impliedEquityValue :=
      or_else (netIncome lastProjection * avgPe)
              (impliedEv - safeNumber (debtBalance model) (Fin 0)) in
    {| avgEvEbitda := guard avgEvEbitda; avgPe := guard avgPe;
       impliedEv := guard impliedEv;
       impliedEquityValue := guard impliedEquityValue |}
  end.

(** ** calculateBreakdowns *)

Inductive Operator : Type := OpPlus | OpMinus | OpEq | OpTimes | OpDiv.

(** [BreakdownStep].  The optional [formula] text, a rendering of the
    same numbers for display, is left out. *)
Record BreakdownStep : Type := mkStep {
  label : string;
  value : num;
  operator : option Operator
}.

Record MetricBreakdown : Type := mkMetric {
  metricKey : string;
  metricLabel : string;
  finalValue : num;
  steps : list BreakdownStep
}.

Record YearBreakdowns : Type := mkYearBreakdowns {
  yb_year : nat;
  yb_grossProfit : MetricBreakdown;
  yb_ebitda : MetricBreakdown;
  yb_ebit : MetricBreakdown;
  yb_netIncome : MetricBreakdown;
  yb_ufcf : MetricBreakdown
}.

Record ValuationBreakdown : Type := mkValuationBreakdown {
  vb_pvOfFcf : MetricBreakdown;
  vb_terminalValue : MetricBreakdown;
  vb_enterpriseValue : MetricBreakdown;
  vb_equityValue : MetricBreakdown
}.

Record ModelBreakdowns : Type := mkBreakdowns {
  yearlyBreakdowns : list YearBreakdowns;
  valuationBreakdown : ValuationBreakdown
}.

Definition step (l : string) (v : num) (o : Operator) : BreakdownStep :=
  {| label := l; value := v; operator := Some o |}.

(** The decimal text of a year number, for the label [Year n FCF PV]. *)
Definition showNat (n : nat) : string := NilEmpty.string_of_uint (Nat.to_uint n).

(** The callback of [projections.map(p => ...)] that builds one year's
    breakdowns. *)
Definition yearBreakdown (model : Model) (p : YearProjection) : YearBreakdowns :=
  {| yb_year := year p;
     yb_grossProfit :=
       {| metricKey := "grossProfit"; metricLabel := "Gross Profit";
          finalValue := grossProfit p;
          steps := [ step "Revenue" (revenue p) OpEq;
                     step "Cost of Goods Sold (COGS)" (cogs p) OpMinus;
                     step "Gross Profit" (grossProfit p) OpEq ] |};
     yb_ebitda :=
       {| metricKey := "ebitda"; metricLabel := "EBITDA";
          finalValue := ebitda p;
          steps := [ step "Gross Profit" (grossProfit p) OpEq;
                     step "Operating Expenses (OpEx)" (opex p) OpMinus;
                     step "EBITDA" (ebitda p) OpEq ] |};
     yb_ebit :=
       {| metricKey := "ebit"; metricLabel := "EBIT";
          finalValue := ebit p;
          steps := [ step "EBITDA" (ebitda p) OpEq;
                     step "Depreciation & Amortization" (da p) OpMinus;
                     step "EBIT" (ebit p) OpEq ] |};
     yb_netIncome :=
       {| metricKey := "netIncome"; metricLabel := "Net Income";
          finalValue := netIncome p;
          steps := [ step "EBIT" (ebit p) OpEq;
                     step "Interest Expense" (interest p) OpMinus;
                     step "EBT (Earnings Before Tax)" (ebt p) OpEq;
                     step "Taxes" (tax p) OpMinus;
                     step "Net Income" (netIncome p) OpEq ] |};
     yb_ufcf :=
       {| metricKey := "ufcf";
          metricLabel := "Unlevered Free Cash Flow (UFCF)";
          finalValue := ufcf p;
          steps := [ step "EBIT" (ebit p) OpEq;
                     step "Taxes on EBIT"
                       (Math_round
                          (if ebit p >? Fin 0
                           then ebit p * safeNumber (taxRate model) (Fin 21) / Fin 100
                           else Fin 0)) OpMinus;
                     step "NOPAT (EBIAT)" (nopat p) OpEq;
                     step "Depreciation & Amortization" (da p) OpPlus;
                     step "Change in Net Working Capital" (changeInNwc p) OpMinus;
                     step "Capital Expenditures" (capex p) OpMinus;
                     step "Unlevered Free Cash Flow" (ufcf p) OpEq ] |} |}.

Definition calculateBreakdowns (model : Model)
    (projections : list YearProjection) (valuation : ValuationOutput)
    : ModelBreakdowns :=
  let yearlyBreakdowns := map (yearBreakdown model) projections in
  let sumPvOfFcf :=
    fold_left (fun sum p => sum + (if isFinite (pvOfFcf p) then pvOfFcf p else Fin 0))
              projections (Fin 0) in
  let wacc := Math_max (Fin 0.01) (safeNumber (wacc model) (Fin 10) / Fin 100) in
  let terminalGrowth := safeNumber (terminalGrowthRate model) (Fin 2) / Fin 100 in
  let lastFcf :=
    match projections with
    | [] => Fin 0
    | first :: _ => fcf (lastOf first projections)
    end in
  let debt := safeNumber (debtBalance model) (Fin 0) in
  let pvOfTv :=
    if wacc >? Fin 0
    then terminalValue valuation / Math_pow (Fin 1 + wacc) (of_nat (List.length projections))
    else Fin 0 in
  {| yearlyBreakdowns := yearlyBreakdowns;
     valuationBreakdown :=
       {| vb_pvOfFcf :=
            {| metricKey := "pvOfFcf"; metricLabel := "Present Value of FCF";
               finalValue := sumPvOfFcf;
               steps := map (fun p =>
                               {| label := ("Year " ++ showNat (year p) ++ " FCF PV")%string;
                                  value := pvOfFcf p; operator := None |})
                            projections |};
          vb_terminalValue :=
            {| metricKey := "terminalValue"; metricLabel := "Terminal Value";
               finalValue := terminalValue valuation;
               steps := [ step "Year 5 FCF" lastFcf OpEq;
                          {| label := "Terminal Growth Rate";
                             value := terminalGrowth * Fin 100; operator := None |};
                          {| label := "WACC"; value := wacc * Fin 100;
                             operator := None |};
                          step "Terminal Value" (terminalValue valuation) OpEq ] |};
          vb_enterpriseValue :=
            {| metricKey := "enterpriseValue"; metricLabel := "Enterprise Value";
               finalValue := enterpriseValue valuation;
               steps := [ step "Sum of PV of FCF" sumPvOfFcf OpEq;
                          step "PV of Terminal Value" pvOfTv OpPlus;
                          step "Enterprise Value" (enterpriseValue valuation) OpEq ] |};
          vb_equityValue :=
            {| metricKey := "equityValue"; metricLabel := "Equity Value";
               finalValue := equityValue valuation;
               steps := [ step "Enterprise Value" (enterpriseValue valuation) OpEq;
                          step "Less: Net Debt" debt OpMinus;
                          step "Equity Value" (equityValue valuation) OpEq ] |} |} |}.

(** ** calculateSensitivity *)

(** The spread copies [{ ...model, f: String(v) }]: the record with the
    field replaced.  [Number(String(v))] is [v] for every number, so the
    copy holds [v] where [safeNumber] reads it. *)
Definition with_wacc_growth (model : Model) (w g : num) : Model :=
  {| startingRevenue := startingRevenue model; growthRate := growthRate model;
     cogsMargin := cogsMargin model; opexMargin := opexMargin model;
     daMargin := daMargin model; interestRate := interestRate model;
     debtBalance := debtBalance model; cashBalance := cashBalance model;
     sharesOutstanding := sharesOutstanding model; taxRate := taxRate model;
     arDays := arDays model; inventoryDays := inventoryDays model;
     apDays := apDays model; capexPercent := capexPercent model;
     maintenanceCapexPercent := maintenanceCapexPercent model;
     wacc := w; terminalGrowthRate := g;
     exitMultiple := exitMultiple model;
     useMidYearConvention := useMidYearConvention model;
     tradingComps := tradingComps model |}.

Definition with_growth_opex (model : Model) (g o : num) : Model :=
  {| startingRevenue := startingRevenue model; growthRate := g;
     cogsMargin := cogsMargin model; opexMargin := o;
     daMargin := daMargin model; interestRate := interestRate model;
     debtBalance := debtBalance model; cashBalance := cashBalance model;
     sharesOutstanding := sharesOutstanding model; taxRate := taxRate model;
     arDays := arDays model; inventoryDays := inventoryDays model;
     apDays := apDays model; capexPercent := capexPercent model;
     maintenanceCapexPercent := maintenanceCapexPercent model;
     wacc := wacc model; terminalGrowthRate := terminalGrowthRate model;
     exitMultiple := exitMultiple model;
     useMidYearConvention := useMidYearConvention model;
     tradingComps := tradingComps model |}.

(** [SensitivityTable]. *)
Record SensitivityTable : Type := mkTable {
  title : string;
  rowLabel : string;
  colLabel : string;
  rowValues : list num;
  colValues : list num;
  data : list (list num);
  highlightedRow : nat;
  highlightedCol : nat
}.

Record SensitivityAnalysis : Type := mkSensitivity {
  waccVsGrowth : SensitivityTable;
  entryVsExit : SensitivityTable;
  revenueGrowthVsMargin : SensitivityTable
}.

(** The nested [forEach] that fills a grid row by row. *)
Definition grid (rows cols : list num) (cell : num -> num -> num)
    : list (list num) :=
  map (fun r => map (fun c => cell r c) cols) rows.

Definition calculateSensitivity (model : Model)
    (projections : list YearProjection) : SensitivityAnalysis :=
  let baseWacc := safeNumber (wacc model) (Fin 10) in
  let baseGrowth := safeNumber (terminalGrowthRate model) (Fin 2) in
  let baseEntryMultiple := safeNumber (exitMultiple model) (Fin 8) in
  let baseExitMultiple := safeNumber (exitMultiple model) (Fin 12) in
  let waccValues :=
    [baseWacc - Fin 2; baseWacc - Fin 1; baseWacc; baseWacc + Fin 1;
     baseWacc + Fin 2] in
  let growthValues :=
    [baseGrowth - Fin 1; baseGrowth - Fin 0.5; baseGrowth;
     baseGrowth + Fin 0.5; baseGrowth + Fin 1] in
  let waccVsGrowthData :=
    grid waccValues growthValues (fun wacc growth =>
      let tempModel := with_wacc_growth model wacc growth in
      let tempProjections := calculateProjections tempModel in
      let tempValuation := fst (calculateValuation tempModel tempProjections) in
      Math_round (enterpriseValue tempValuation)) in
  let entryValues := [Fin 6; Fin 7; Fin 8; Fin 9; Fin 10] in
  let exitValues := [Fin 10; Fin 11; Fin 12; Fin 13; Fin 14] in
  let lastEbitda :=
    match projections with
    | [] => Fin 0
    | first :: _ => ebitda (lastOf first projections)
    end in
  let entryVsExitData :=
    grid entryValues exitValues (fun entry exit =>
      let entryEv := lastEbitda * entry in
      let exitEv :=
        lastEbitda * exit *
        Math_pow (Fin 1 + safeNumber (growthRate model) (Fin 15) / Fin 100) (Fin 5) in
      let moic := if entryEv >? Fin 0 then exitEv / entryEv else Fin 0 in
      Math_round (moic * Fin 100) / Fin 100) in
  let revenueGrowthValues := [Fin 10; Fin 12.5; Fin 15; Fin 17.5; Fin 20] in
  let marginValues := [Fin 25; Fin 27.5; Fin 30; Fin 32.5; Fin 35] in
  let growthVsMarginData :=
    grid revenueGrowthValues marginValues (fun revGrowth margin =>
      let tempModel :=
        with_growth_opex model revGrowth
          (Fin 100 - margin - safeNumber (cogsMargin model) (Fin 40)) in
      let tempProjections := calculateProjections tempModel in
      let tempValuation := fst (calculateValuation tempModel tempProjections) in
      Math_round (enterpriseValue tempValuation)) in
  {| waccVsGrowth :=
       {| title := "Enterprise Value Sensitivity: WACC vs Terminal Growth";
          rowLabel := "WACC (%)"; colLabel := "Terminal Growth (%)";
          rowValues := waccValues; colValues := growthValues;
          data := waccVsGrowthData;
          highlightedRow := 2; highlightedCol := 2 |};
     entryVsExit :=
       {| title := "MOIC Sensitivity: Entry Multiple vs Exit Multiple";
          rowLabel := "Entry Multiple (x)"; colLabel := "Exit Multiple (x)";
          rowValues := entryValues; colValues := exitValues;
          data := entryVsExitData;
          highlightedRow := 2; highlightedCol := 2 |};
     revenueGrowthVsMargin :=
       {| title := "Enterprise Value: Revenue Growth vs EBITDA Margin";
          rowLabel := "Revenue Growth (%)"; colLabel := "EBITDA Margin (%)";
          rowValues := revenueGrowthValues; colValues := marginValues;
          data := growthVsMarginData;
          highlightedRow := 2; highlightedCol := 2 |} |}.

(** ** The LBO model of the export route *)

(** The row of [lbo_assumptions] read by the route, each numeric field as
    [Number(field)] ([NaN] when the row or the field is absent);
    [lbo_holdingPeriod] is [None] when absent. *)
Record LboAssumptions : Type := mkLbo {
  lbo_entryMultiple : num;
  lbo_exitMultiple : num;
  lbo_holdingPeriod : option nat;
  lbo_debtPercent : num;
  lbo_interestRate : num;
  lbo_annualDebtPaydown : num;
  lbo_seniorDebtMultiple : num;
  lbo_mezDebtMultiple : num;
  lbo_seniorDebtRate : num;
  lbo_mezDebtRate : num
}.

(** One element of [debtSchedule]. *)
Record DebtScheduleYear : Type := mkDebtYear {
  ds_year : nat;
  beginSenior : num;
  seniorInterest : num;
  seniorAmort : num;
  endSenior : num;
  beginMez : num;
  mezInterest : num;
  mezAmort : num;
  endMez : num;
  ds_ebitda : num;
  ds_capex : num;
  wcChange : num;
  ds_fcf : num;
  cashSweep : num;
  distributableFcf : num;
  totalDebtService : num
}.

(** [lboAssumptions?.holdingPeriod || 5]. *)
Definition holdingPeriodOf (a : LboAssumptions) : nat :=
  match lbo_holdingPeriod a with
  | None | Some O => 5
  | Some n => n
  end.

(** The body shared, statement for statement, by the loop that builds
    [debtSchedule] and by the loop that builds [scenarioFcfs]: one year
    from the balances [seniorBalance] and [mezBalance]. *)
Definition scheduleYear (seniorDebt annualDebtPaydownPct seniorInterestRate
    mezInterestRate : num) (yr : nat) (proj : YearProjection)
    (seniorBalance mezBalance : num) : DebtScheduleYear :=
  let beginSenior := seniorBalance in
  let beginMez := mezBalance in
  let seniorInt := beginSenior * (seniorInterestRate / Fin 100) in
  let mezInt := beginMez * (mezInterestRate / Fin 100) in
  let mandatoryAmort := seniorDebt * (annualDebtPaydownPct / Fin 100) in
  let seniorAmort := Math_min mandatoryAmort beginSenior in
  let ebitda := ebitda proj in
  let capex := or_else (capex proj) (ebitda * Fin 0.08) in
  let wcChange := or_else (changeInNwc proj) (Fin 0) in
  let taxRate := Fin 0.25 in
  let taxes := Math_max (Fin 0) ((ebitda - seniorInt - mezInt) * taxRate) in
  let fcf := ebitda - seniorInt - mezInt - taxes - capex - wcChange - seniorAmort in
  let cashSweep :=
    Math_max (Fin 0) (Math_min (fcf * Fin 0.5) (beginSenior - seniorAmort)) in
  let distributableFcf := fcf - cashSweep in
  let seniorBalance := Math_max (Fin 0) (beginSenior - seniorAmort - cashSweep) in
  let mezBalance := beginMez in
  {| ds_year := yr + 1;
     beginSenior := beginSenior;
     seniorInterest := seniorInt;
     seniorAmort := seniorAmort;
     endSenior := seniorBalance;
     beginMez := beginMez;
     mezInterest := mezInt;
     mezAmort := Fin 0;
     endMez := mezBalance;
     ds_ebitda := ebitda;
     ds_capex := capex;
     wcChange := wcChange;
     ds_fcf := fcf;
     cashSweep := cashSweep;
     distributableFcf := distributableFcf;
     totalDebtService := seniorInt + mezInt + seniorAmort |}.

(** [for (let yr = 0; yr < holdingPeriod && yr < projections.length; yr++)]
    over the projections still to visit, from year index [yr]. *)
Fixpoint debtScheduleLoop (seniorDebt annualDebtPaydownPct seniorInterestRate
    mezInterestRate : num) (yr : nat) (ps : list YearProjection)
    (seniorBalance mezBalance : num) : list DebtScheduleYear :=
  match ps with
  | [] => []
  | proj :: rest =>
    let d := scheduleYear seniorDebt annualDebtPaydownPct seniorInterestRate
               mezInterestRate yr proj seniorBalance mezBalance in
    d :: debtScheduleLoop seniorDebt annualDebtPaydownPct seniorInterestRate
           mezInterestRate (S yr) rest (endSenior d) (endMez d)
  end.

(** The scenario loop of the IRR grid: it keeps only the distributable
    cash flows and the last senior balance; the mezzanine balance is
    never reassigned. *)
Fixpoint scenarioLoop (sensSeniorDebt annualDebtPaydownPct seniorInterestRate
    mezInterestRate : num) (yr : nat) (ps : list YearProjection)
    (sensSeniorBalance sensMezBalance : num) : list num * num :=
  match ps with
  | [] => ([], sensSeniorBalance)
  | proj :: rest =>
    let d := scheduleYear sensSeniorDebt annualDebtPaydownPct
               seniorInterestRate mezInterestRate yr proj
               sensSeniorBalance sensMezBalance in
    let '(fcfs, final) :=
      scenarioLoop sensSeniorDebt annualDebtPaydownPct seniorInterestRate
        mezInterestRate (S yr) rest (endSenior d) sensMezBalance in
    (distributableFcf d :: fcfs, final)
  end.

(** ** calculateIRR *)

(** The inner [for (let t = 0; t < flows.length; t++)] from index [t]. *)
Fixpoint npvLoop (rate : num) (t : nat) (flows : list num) (npv dnpv : num)
    : num * num :=
  match flows with
  | [] => (npv, dnpv)
  | f :: rest =>
    let npv := npv + f / Math_pow (Fin 1 + rate) (of_nat t) in
    let dnpv := dnpv - of_nat t * f / Math_pow (Fin 1 + rate) (of_nat t + Fin 1) in
    npvLoop rate (S t) rest npv dnpv
  end.

(** The outer loop with [n] iterations left. *)
Fixpoint irrLoop (flows : list num) (n : nat) (rate : num) : num :=
  match n with
  | O => rate
  | S n' =>
    let '(npv, dnpv) := npvLoop rate 0 flows (Fin 0) (Fin 0) in
    if Math_abs npv <? Fin 0.0001 then rate
    else if Math_abs dnpv <? Fin 0.0001 then rate
    else
      let rate := rate - npv / dnpv in
      let rate := if rate <? Fin (-0.99) then Fin (-0.99) else rate in
      let rate := if rate >? Fin 10 then Fin 10 else rate in
      irrLoop flows n' rate
  end.

Definition calculateIRR (flows : list num) : num :=
  irrLoop flows 100 (Fin 0.15) * Fin 100.

(** [cashFlows[cashFlows.length - 1] += v]. *)
Fixpoint addToLast (xs : list num) (v : num) : list num :=
  match xs with
  | [] => []
  | [x] => [x + v]
  | x :: rest => x :: addToLast rest v
  end.

(** What the LBO sheet of the export route computes. *)
Record LboScenario : Type := mkScenario {
  entryEbitda : num;
  entryEv : num;
  totalDebt : num;
  seniorDebt : num;
  mezDebt : num;
  equityContribution : num;
  debtSchedule : list DebtScheduleYear;
  exitEbitda : num;
  debtAtExit : num;
  exitEv : num;
  exitEquity : num;
  moic : num;
  cashFlows : list num;
  irr : num;
  sensitivityIrrs : list (list num)
}.

Definition lboScenario (lboAssumptions : LboAssumptions)
    (projections : list YearProjection) : LboScenario :=
  let entryMultiple := or_else (lbo_entryMultiple lboAssumptions) (Fin 8) in
  let exitMultipleLbo := or_else (lbo_exitMultiple lboAssumptions) (Fin 12) in
  let holdingPeriod := holdingPeriodOf lboAssumptions in
  let debtPercent := or_else (lbo_debtPercent lboAssumptions) (Fin 60) in
  let annualDebtPaydownPct :=
    or_else (lbo_annualDebtPaydown lboAssumptions) (Fin 6) in
  let seniorDebtMultiple :=
    or_else (lbo_seniorDebtMultiple lboAssumptions) (Fin 4) in
  let mezDebtMultiple := or_else (lbo_mezDebtMultiple lboAssumptions) (Fin 1.5) in
  let seniorInterestRate := or_else (lbo_seniorDebtRate lboAssumptions) (Fin 6) in
  let mezInterestRate := or_else (lbo_mezDebtRate lboAssumptions) (Fin 12) in
  let entryEbitda :=
    match projections with
    | [] => Fin 0
    | p :: _ => or_else (ebitda p) (Fin 0)
    end in
  let entryEv := entryEbitda * entryMultiple in
  let totalDebt := entryEv * (debtPercent / Fin 100) in
  let seniorDebt := Math_min (entryEbitda * seniorDebtMultiple) totalDebt in
  let mezDebt := Math_min (entryEbitda * mezDebtMultiple) (totalDebt - seniorDebt) in
  let equityContribution := entryEv - seniorDebt - mezDebt in
  let years := firstn holdingPeriod projections in
  let debtSchedule :=
    debtScheduleLoop seniorDebt annualDebtPaydownPct seniorInterestRate
      mezInterestRate 0 years seniorDebt mezDebt in
  let exitEbitda :=
    match rev debtSchedule with
    | [] => entryEbitda
    | d :: _ => ds_ebitda d
    end in
  let debtAtExit :=
    match rev debtSchedule with
    | [] => totalDebt
    | d :: _ => endSenior d + endMez d
    end in
  let exitEv := exitEbitda * exitMultipleLbo in
  let exitEquity := exitEv - debtAtExit in
  let moic :=
    if equityContribution >? Fin 0 then exitEquity / equityContribution
    else Fin 0 in
  let cashFlows :=
    addToLast (- equityContribution :: map distributableFcf debtSchedule)
              exitEquity in
  let irr := calculateIRR cashFlows in
  let entryMults :=
    [entryMultiple - Fin 2; entryMultiple - Fin 1; entryMultiple;
     entryMultiple + Fin 1; entryMultiple + Fin 2] in
  let exitMults :=
    [exitMultipleLbo - Fin 2; exitMultipleLbo - Fin 1; exitMultipleLbo;
     exitMultipleLbo + Fin 1; exitMultipleLbo + Fin 2] in
  let sensitivityIrrs :=
    map (fun entryM =>
      let sensEntryEv := entryEbitda * entryM in
      let sensTotalDebt := sensEntryEv * (debtPercent / Fin 100) in
      let sensSeniorDebt :=
        Math_min (entryEbitda * seniorDebtMultiple) sensTotalDebt in
      let sensMezDebt :=
        Math_min (entryEbitda * mezDebtMultiple) (sensTotalDebt - sensSeniorDebt) in
      let sensEquity := sensEntryEv - sensSeniorDebt - sensMezDebt in
      let '(scenarioFcfs, sensSeniorBalance) :=
        scenarioLoop sensSeniorDebt annualDebtPaydownPct seniorInterestRate
          mezInterestRate 0 years sensSeniorDebt sensMezDebt in
      let sensDebtAtExit := sensSeniorBalance + sensMezDebt in
      map (fun exitM =>
        let sensExitEv := exitEbitda * exitM in
        let sensExitEquity := sensExitEv - sensDebtAtExit in
        let sensFlows := addToLast (- sensEquity :: scenarioFcfs) sensExitEquity in
        calculateIRR sensFlows) exitMults) entryMults in
  {| entryEbitda := entryEbitda; entryEv := entryEv; totalDebt := totalDebt;
     seniorDebt := seniorDebt; mezDebt := mezDebt;
     equityContribution := equityContribution;
     debtSchedule := debtSchedule; exitEbitda := exitEbitda;
     debtAtExit := debtAtExit; exitEv := exitEv; exitEquity := exitEquity;
     moic := moic; cashFlows := cashFlows; irr := irr;
     sensitivityIrrs := sensitivityIrrs |}.

End Engine.

(** ** The export route: cover sheet and comparables *)

(** [valuation.enterpriseValue && finalYearEbitda > 0
     ? valuation.enterpriseValue / finalYearEbitda : 0], with
    [finalYearEbitda = projections[projections.length - 1]?.ebitda || 0]. *)
Definition coverEvEbitdaImplied (valuation : ValuationOutput)
    (projections : list YearProjection) : num :=
  let finalYearEbitda :=
    match projections with
    | [] => Fin 0
    | first :: _ => or_else (ebitda (lastOf first projections)) (Fin 0)
    end in
  if truthy (enterpriseValue valuation) && (finalYearEbitda >? Fin 0)
  then enterpriseValue valuation / finalYearEbitda
  else Fin 0.

(** [c => c.ebitda > 0 ? c.ev / c.ebitda : 0]. *)
Definition sheetEvEbitdaOf (c : TradingCompEntry) : num :=
  if comp_ebitda c >? Fin 0 then comp_ev c / comp_ebitda c else Fin 0.

(** [c => c.netIncome > 0 ? c.marketCap / c.netIncome : 0]. *)
Definition sheetPeOf (c : TradingCompEntry) : num :=
  if comp_netIncome c >? Fin 0 then comp_marketCap c / comp_netIncome c
  else Fin 0.

(** The predicate of the sheet's [filter]s: [v > 0]. *)
Definition positive (v : num) : bool := v >? Fin 0.

Definition sheetEvEbitdas (comps : list TradingCompEntry) : list num :=
  filter positive (map sheetEvEbitdaOf comps).

Definition sheetPes (comps : list TradingCompEntry) : list num :=
  filter positive (map sheetPeOf comps).

(** [xs.sort((a, b) => a - b)] on numbers: the values in ascending
    order.  The lists sorted here hold what passed [v > 0], so no [NaN];
    the order of equal numbers cannot be told apart. *)
Fixpoint insertAscending (x : num) (xs : list num) : list num :=
  match xs with
  | [] => [x]
  | y :: rest => if x <=? y then x :: xs else y :: insertAscending x rest
  end.

Definition sortAscending (xs : list num) : list num :=
  fold_right insertAscending [] xs.

(** [xs.length > 0 ? xs.sort((a, b) => a - b)[Math.floor(xs.length / 2)] : 0]. *)
Definition medianOf (xs : list num) : num :=
  match xs with
  | [] => Fin 0
  | _ => nth (List.length xs / 2) (sortAscending xs) NaN
  end.

(** The figures under the peers on the "Trading Comps" sheet. *)
Record CompsSheet : Type := mkCompsSheet {
  sheet_avgEvEbitda : num;
  sheet_avgPe : num;
  sheet_medianEvEbitda : num;
  sheet_medianPe : num;
  sheet_impliedEv : num;
  sheet_impliedEquity : num
}.

(** The [if (tradingComps.length > 0)] block of the sheet; [None] when
    the sheet says that there are no comparables. *)
Definition compsSheet (model : Model) (projections : list YearProjection)
    : option CompsSheet :=
  match tradingComps model with
  | [] => None
  | comps =>
    let evEbitdas := sheetEvEbitdas comps in
    let pes := sheetPes comps in
    let avgEvEbitda := average evEbitdas in
    let avgPe := average pes in
    let medianEvEbitda := medianOf evEbitdas in
    let medianPe := medianOf pes in
    let lastEbitda :=
      match projections with
      | [] => Fin 0
      | first :: _ => or_else (ebitda (lastOf first projections)) (Fin 0)
      end in
    let lastNetIncome :=
      match projections with
      | [] => Fin 0
      | first :: _ => or_else (netIncome (lastOf first projections)) (Fin 0)
      end in
    Some {| sheet_avgEvEbitda := avgEvEbitda; sheet_avgPe := avgPe;
            sheet_medianEvEbitda := medianEvEbitda; sheet_medianPe := medianPe;
            sheet_impliedEv := lastEbitda * avgEvEbitda;
            sheet_impliedEquity := lastNetIncome * avgPe |}
  end.

(** ** The portfolio statistics routes *)




(** ** generateExecutiveInsights: the top value driver *)

(** An element of [modelMetrics], without the margin, which the choice
    of the top model does not read. *)
Record ModelMetric : Type := mkModelMetric {
  mm_model : Model;
  mm_revenue : num;
  mm_growth : num
}.

(** The callback of [models.map(model => ...)]. *)
Definition metricOf (model : Model) : ModelMetric :=
  {| mm_model := model;
     mm_revenue := or_else (startingRevenue model) (Fin 0);
     mm_growth := or_else (growthRate model) (Fin 0) |}.

(** [modelMetrics.reduce((a, b) =>
       a.revenue * a.growth > b.revenue * b.growth ? a : b)];
    [None] when there is no model and the insight is not written. *)
Definition topModel (models : list Model) : option ModelMetric :=
  match map metricOf models with
  | [] => None
  | first :: rest =>
    Some (fold_left
            (fun a b =>
               if mm_revenue a * mm_growth a >? mm_revenue b * mm_growth b
               then a else b)
            rest first)
  end.

(** ** Vocabulary of the properties *)

(** *** Quantities derived from the model *)

(** The floored discount rate and the terminal growth that
    [calculateValuation] derives from the model. *)
Definition waccOf (model : Model) : num :=
  Math_max (Fin 0.01) (safeNumber (wacc model) (Fin 10) / Fin 100).

Definition terminalGrowthOf (model : Model) : num :=
  safeNumber (terminalGrowthRate model) (Fin 2) / Fin 100.

(** The sum of the present values that the [forEach] of
    [calculateValuation] accumulates. *)
Definition sumPvOfFcfOf (pow_rest : num -> num -> num) (model : Model)
    (ps : list YearProjection) : num :=
  snd (discountLoop pow_rest (waccOf model) (useMidYear_of model) 0 ps (Fin 0)).


(** What the breakdown route computes: projections, then the valuation
    (which writes into them), then the breakdowns of the same array. *)
Definition breakdownsOf (pow_rest : num -> num -> num) (model : Model)
    : ModelBreakdowns :=
  let projections := calculateProjections model in
  let '(valuation, projections) := calculateValuation pow_rest model projections in
  calculateBreakdowns pow_rest model projections valuation.

(** The values of the steps of a breakdown, in order. *)
Definition stepValues (b : MetricBreakdown) : list num := map value (steps b).

(** The last two statements of the projection loop: the revenue of the
    next year. *)
Definition nextRevenue (growthRate revenue : num) : num :=
  let revenue1 := Math_round (revenue * (Fin 1 + growthRate / Fin 100)) in
  if revenue1 <=? Fin 0 then Fin 1 else revenue1.


(** *** Predicates *)

(** Two projections agree on every field that [calculateValuation] does
    not assign (all but [fcf], [discountFactor] and [pvOfFcf]). *)
Definition same_frame (p q : YearProjection) : Prop :=
  year p = year q /\ revenue p = revenue q /\ cogs p = cogs q /\
  grossProfit p = grossProfit q /\ opex p = opex q /\ ebitda p = ebitda q /\
  da p = da q /\ ebit p = ebit q /\ interest p = interest q /\
  ebt p = ebt q /\ tax p = tax q /\ netIncome p = netIncome q /\
  revenueGrowth p = revenueGrowth q /\ ebitdaMargin p = ebitdaMargin q /\
  netMargin p = netMargin q /\
  accountsReceivable p = accountsReceivable q /\ inventory p = inventory q /\
  accountsPayable p = accountsPayable q /\
  netWorkingCapital p = netWorkingCapital q /\
  changeInNwc p = changeInNwc q /\ capex p = capex q /\
  maintenanceCapex p = maintenanceCapex q /\ growthCapex p = growthCapex q /\
  nopat p = nopat q /\ ufcf p = ufcf q.

(** What [calculateValuation] does to one element [p] of its argument,
    [q] being the element after the call: the frame is kept, and the
    three remaining fields are assigned. *)
Definition assigned_by_valuation (p q : YearProjection) : Prop :=
  same_frame p q /\ fcf q = ufcf p /\ pvOfFcf q = fcf q * discountFactor q.


(** The three fields of a projection that the debt schedule reads are
    finite numbers. *)
Definition finite_inputs (p : YearProjection) : Prop :=
  isFinite (ebitda p) = true /\ isFinite (capex p) = true /\
  isFinite (changeInNwc p) = true.

(** The cash sweep of a schedule year stays within what is left of the
    senior debt after the mandatory amortization, and the year ends on a
    senior balance that is not negative. *)
Definition sweep_within_balance (d : DebtScheduleYear) : Prop :=
  cashSweep d <= beginSenior d - seniorAmort d /\ Fin 0 <= endSenior d.



(** *** The solver on rationals *)

(** The cash flows of one investment of 100 and one payoff after five
    years, whose internal rate of return is [r]. *)
Definition bulletFlows (r : Q) : list num :=
  [Fin (-100); Fin 0; Fin 0; Fin 0; Fin 0; Fin (100 * (1 + r) ^ 5)].

(** The inner loop of [calculateIRR] on rationals, [u] being [1 + rate]. *)
Fixpoint qnpvLoop (u : Q) (t : nat) (fs : list Q) (npv dnpv : Q) : Q * Q :=
  match fs with
  | [] => (npv, dnpv)
  | f :: rest =>
    qnpvLoop u (S t) rest
      (npv + f / u ^ Z.of_nat t)%Q
      (dnpv - inject_Z (Z.of_nat t) * f / u ^ (Z.of_nat t + 1))%Q
  end.




(** *** Inputs of the examples *)

(** An instance of [pow_rest] for closed computations: nothing is known
    about [Math.pow] away from the integer exponents, and the examples
    that use this instance run the full-year convention, where every
    exponent is an integer. *)
Definition pow_unknown : num -> num -> num := fun _ _ => NaN.

(** A model with the flag of the mid-year convention replaced. *)
Definition with_useMidYear (model : Model) (flag : option bool) : Model :=
  {| startingRevenue := startingRevenue model; growthRate := growthRate model;
     cogsMargin := cogsMargin model; opexMargin := opexMargin model;
     daMargin := daMargin model; interestRate := interestRate model;
     debtBalance := debtBalance model; cashBalance := cashBalance model;
     sharesOutstanding := sharesOutstanding model; taxRate := taxRate model;
     arDays := arDays model; inventoryDays := inventoryDays model;
     apDays := apDays model; capexPercent := capexPercent model;
     maintenanceCapexPercent := maintenanceCapexPercent model;
     wacc := wacc model; terminalGrowthRate := terminalGrowthRate model;
     exitMultiple := exitMultiple model;
     useMidYearConvention := flag;
     tradingComps := tradingComps model |}.

(** The projections of the scenario, as a first year and the years
    after it. *)
Definition scenario_first : YearProjection :=
  Eval vm_compute in
    match calculateProjections scenario_model with
    | p :: _ => p
    | [] => mkYear 0 NaN NaN NaN NaN NaN NaN NaN NaN NaN NaN NaN NaN NaN NaN
              NaN NaN NaN NaN NaN NaN NaN NaN NaN NaN NaN NaN NaN
    end.

Definition scenario_rest : list YearProjection :=
  Eval vm_compute in tl (calculateProjections scenario_model).

(** The scenario with the convention flag absent, so that the mid-year
    convention applies. *)
Definition midyear_model : Model := with_useMidYear scenario_model None.


(** A model whose costs absorb the whole revenue: EBITDA is zero in every
    year. *)
Definition zero_ebitda_model : Model := {|
  startingRevenue := Fin 1000000; growthRate := Fin 10;
  cogsMargin := Fin 60; opexMargin := Fin 40; daMargin := Fin 5;
  interestRate := Fin 5; debtBalance := Fin 0; cashBalance := Fin 0;
  sharesOutstanding := Fin 1000000; taxRate := Fin 21;
  arDays := Fin 45; inventoryDays := Fin 60; apDays := Fin 30;
  capexPercent := Fin 5; maintenanceCapexPercent := Fin 2;
  wacc := Fin 10; terminalGrowthRate := Fin 2; exitMultiple := Fin 12;
  useMidYearConvention := Some false; tradingComps := [] |}.

(** The scenario with 200,000 of debt and 50,000 of cash. *)
Definition levered_model : Model := {|
  startingRevenue := Fin 1000000; growthRate := Fin 15;
  cogsMargin := Fin 40; opexMargin := Fin 30; daMargin := Fin 5;
  interestRate := Fin 5; debtBalance := Fin 200000; cashBalance := Fin 50000;
  sharesOutstanding := Fin 1000000; taxRate := Fin 21;
  arDays := Fin 45; inventoryDays := Fin 60; apDays := Fin 30;
  capexPercent := Fin 5; maintenanceCapexPercent := Fin 2;
  wacc := Fin 10; terminalGrowthRate := Fin 2; exitMultiple := Fin 12;
  useMidYearConvention := Some false; tradingComps := [] |}.

(** The scenario at 5% growth and a 10x exit multiple. *)
Definition slow_model : Model := {|
  startingRevenue := Fin 1000000; growthRate := Fin 5;
  cogsMargin := Fin 40; opexMargin := Fin 30; daMargin := Fin 5;
  interestRate := Fin 5; debtBalance := Fin 0; cashBalance := Fin 0;
  sharesOutstanding := Fin 1000000; taxRate := Fin 21;
  arDays := Fin 45; inventoryDays := Fin 60; apDays := Fin 30;
  capexPercent := Fin 5; maintenanceCapexPercent := Fin 2;
  wacc := Fin 10; terminalGrowthRate := Fin 2; exitMultiple := Fin 10;
  useMidYearConvention := Some false; tradingComps := [] |}.


(** A peer entered with its enterprise value and market capitalisation
    only: EBITDA and net income are absent. *)
Definition bare_peer : TradingCompEntry :=
  {| comp_revenue := NaN; comp_ebitda := NaN; comp_netIncome := NaN;
     comp_ev := Fin 500; comp_marketCap := Fin 300 |}.

(** A complete peer, at 8x EBITDA and 15x earnings. *)
Definition full_peer : TradingCompEntry :=
  {| comp_revenue := Fin 1000; comp_ebitda := Fin 100; comp_netIncome := Fin 40;
     comp_ev := Fin 800; comp_marketCap := Fin 600 |}.


(** The LBO assumptions with every field absent: the defaults apply. *)
Definition default_lbo : LboAssumptions :=
  {| lbo_entryMultiple := NaN; lbo_exitMultiple := NaN;
     lbo_holdingPeriod := None; lbo_debtPercent := NaN;
     lbo_interestRate := NaN; lbo_annualDebtPaydown := NaN;
     lbo_seniorDebtMultiple := NaN; lbo_mezDebtMultiple := NaN;
     lbo_seniorDebtRate := NaN; lbo_mezDebtRate := NaN |}.

(** ** Vocabulary of the further properties *)

(** *** Projections *)

(** Every numeric field of a projection is a finite number. *)
Definition all_finite (p : YearProjection) : Prop :=
  isFinite (revenue p) = true /\ isFinite (cogs p) = true /\
  isFinite (grossProfit p) = true /\ isFinite (opex p) = true /\
  isFinite (ebitda p) = true /\ isFinite (da p) = true /\
  isFinite (ebit p) = true /\ isFinite (interest p) = true /\
  isFinite (ebt p) = true /\ isFinite (tax p) = true /\
  isFinite (netIncome p) = true /\ isFinite (revenueGrowth p) = true /\
  isFinite (ebitdaMargin p) = true /\ isFinite (netMargin p) = true /\
  isFinite (accountsReceivable p) = true /\ isFinite (inventory p) = true /\
  isFinite (accountsPayable p) = true /\
  isFinite (netWorkingCapital p) = true /\ isFinite (changeInNwc p) = true /\
  isFinite (capex p) = true /\ isFinite (maintenanceCapex p) = true /\
  isFinite (growthCapex p) = true /\ isFinite (nopat p) = true /\
  isFinite (ufcf p) = true /\ isFinite (fcf p) = true /\
  isFinite (discountFactor p) = true /\ isFinite (pvOfFcf p) = true.

(** A model record with every field absent. *)
Definition empty_model : Model := {|
  startingRevenue := NaN; growthRate := NaN; cogsMargin := NaN;
  opexMargin := NaN; daMargin := NaN; interestRate := NaN;
  debtBalance := NaN; cashBalance := NaN; sharesOutstanding := NaN;
  taxRate := NaN; arDays := NaN; inventoryDays := NaN; apDays := NaN;
  capexPercent := NaN; maintenanceCapexPercent := NaN; wacc := NaN;
  terminalGrowthRate := NaN; exitMultiple := NaN;
  useMidYearConvention := None; tradingComps := [] |}.

(** The projection that one turn of the loop of [calculateProjections]
    pushes, from the loop state [year], [revenue], [prevNwc]. *)
Definition projectionOfYear (growthRate cogsMargin opexMargin daMargin
    interestRate debtBalance taxRate arDays inventoryDays apDays capexPercent
    maintenanceCapexPercent : num) (year : nat) (revenue prevNwc : num)
    : YearProjection :=
  match projectionLoop growthRate cogsMargin opexMargin daMargin interestRate
          debtBalance taxRate arDays inventoryDays apDays capexPercent
          maintenanceCapexPercent 1 year revenue prevNwc with
  | p :: _ => p
  | [] => mkYear 0 NaN NaN NaN NaN NaN NaN NaN NaN NaN NaN NaN NaN NaN NaN
            NaN NaN NaN NaN NaN NaN NaN NaN NaN NaN NaN NaN NaN
  end.

(** The costs and the tax of a year are not negative, the tax is zero
    when there is nothing to tax, and so the net income is at most the
    earnings before tax. *)
Definition costs_nonnegative (p : YearProjection) : Prop :=
  Fin 0 <= cogs p /\ Fin 0 <= opex p /\ Fin 0 <= da p /\ Fin 0 <= tax p /\
  netIncome p <= ebt p /\ (ebt p <= Fin 0 -> tax p = Fin 0).

(** *** Valuation *)

(** The model with the [exitMultiple] field replaced. *)
Definition with_exitMultiple (model : Model) (x : num) : Model :=
  {| startingRevenue := startingRevenue model; growthRate := growthRate model;
     cogsMargin := cogsMargin model; opexMargin := opexMargin model;
     daMargin := daMargin model; interestRate := interestRate model;
     debtBalance := debtBalance model; cashBalance := cashBalance model;
     sharesOutstanding := sharesOutstanding model; taxRate := taxRate model;
     arDays := arDays model; inventoryDays := inventoryDays model;
     apDays := apDays model; capexPercent := capexPercent model;
     maintenanceCapexPercent := maintenanceCapexPercent model;
     wacc := wacc model; terminalGrowthRate := terminalGrowthRate model;
     exitMultiple := x;
     useMidYearConvention := useMidYearConvention model;
     tradingComps := tradingComps model |}.

(** Two valuations agree on every field but [terminalValueExitMultiple]. *)
Definition same_but_exit_value (v1 v2 : ValuationOutput) : Prop :=
  enterpriseValue v1 = enterpriseValue v2 /\
  equityValue v1 = equityValue v2 /\
  terminalValue v1 = terminalValue v2 /\
  impliedMultiple v1 = impliedMultiple v2 /\
  terminalValueGordon v1 = terminalValueGordon v2 /\
  sumPvFcf v1 = sumPvFcf v2 /\
  pvOfTerminalValue v1 = pvOfTerminalValue v2 /\
  netDebt v1 = netDebt v2 /\
  equityValuePerShare v1 = equityValuePerShare v2 /\
  val_sharesOutstanding v1 = val_sharesOutstanding v2.

(** Each number of the list is greater than the next. *)
Fixpoint strictly_decreasing (xs : list num) : Prop :=
  match xs with
  | a :: (b :: _) as rest => b < a /\ strictly_decreasing rest
  | _ => True
  end.

(** The discount factor of the full-year convention for the element at
    index [k]: [1 / (1 + w) ^ (k + 1)]. *)
Definition fullYearFactor (w : Q) (k : nat) : Q :=
  (1 / (1 + w) ^ (Z.of_nat k + 1))%Q.

(** *** Trading comparables *)


(** A peer with a loss: its P/E ratio is negative. *)
Definition loss_peer : TradingCompEntry :=
  {| comp_revenue := Fin 1000; comp_ebitda := Fin 100; comp_netIncome := Fin (-20);
     comp_ev := Fin 800; comp_marketCap := Fin 600 |}.

(** The scenario with 200,000 of debt and the loss-making peer alone. *)
Definition loss_peer_model : Model := {|
  startingRevenue := Fin 1000000; growthRate := Fin 15;
  cogsMargin := Fin 40; opexMargin := Fin 30; daMargin := Fin 5;
  interestRate := Fin 5; debtBalance := Fin 200000; cashBalance := Fin 50000;
  sharesOutstanding := Fin 1000000; taxRate := Fin 21;
  arDays := Fin 45; inventoryDays := Fin 60; apDays := Fin 30;
  capexPercent := Fin 5; maintenanceCapexPercent := Fin 2;
  wacc := Fin 10; terminalGrowthRate := Fin 2; exitMultiple := Fin 12;
  useMidYearConvention := Some false;
  tradingComps := [loss_peer] |}.

(** *** Breakdowns *)

(** The identities between the fields of a projected year that the
    breakdowns display. *)
Definition income_identities (p : YearProjection) : Prop :=
  grossProfit p = revenue p - cogs p /\
  ebitda p = grossProfit p - opex p /\
  ebit p = ebitda p - da p /\
  ebt p = ebit p - interest p /\
  netIncome p = ebt p - tax p /\
  ufcf p = nopat p + da p - changeInNwc p - capex p.

(** A breakdown of three steps [a], [- x], [= a - x] that ends on its
    final value. *)
Definition subtraction_chain (m : MetricBreakdown) : Prop :=
  exists a x, stepValues m = [a; x; a - x] /\ finalValue m = a - x.

(** The five breakdowns of a year add up: each result line is what the
    lines above it give, from the NOPAT line on for the cash flow. *)
Definition year_chains_hold (b : YearBreakdowns) : Prop :=
  subtraction_chain (yb_grossProfit b) /\
  subtraction_chain (yb_ebitda b) /\
  subtraction_chain (yb_ebit b) /\
  (exists a x y,
      stepValues (yb_netIncome b) = [a; x; a - x; y; a - x - y] /\
      finalValue (yb_netIncome b) = a - x - y) /\
  (exists e t n d w c,
      stepValues (yb_ufcf b) = [e; t; n; d; w; c; n + d - w - c] /\
      finalValue (yb_ufcf b) = n + d - w - c).

(** *** Sensitivity *)

(** The multiple of invested capital of the entry/exit grid: the exit
    multiple over the entry multiple, grown for five years at [g]
    percent. *)
Definition moicOf (g entry exit : Q) : Q :=
  (exit * (1 + g / 100) ^ 5 / entry)%Q.

(** A rational rounded to two decimals, as [Math.round(q * 100) / 100]. *)
Definition round2 (q : Q) : Q :=
  (inject_Z (Qfloor (q * 100 + (1 # 2))) / 100)%Q.

(** The model with the [growthRate] field replaced. *)
Definition with_growthRate (model : Model) (g : num) : Model :=
  with_growth_opex model g (opexMargin model).

(** *** The LBO model *)

(** Each year of the schedule begins on the balances the year before
    ended on, the first one on [seniorBalance] and [mezBalance]. *)
Fixpoint balances_chain (seniorBalance mezBalance : num)
    (ds : list DebtScheduleYear) : Prop :=
  match ds with
  | [] => True
  | d :: rest =>
    beginSenior d = seniorBalance /\ beginMez d = mezBalance /\
    balances_chain (endSenior d) (endMez d) rest
  end.

(** The mezzanine debt of a schedule year is not amortized: the year
    begins and ends on [mezDebt]. *)
Definition mezzanine_untouched (mezDebt : num) (d : DebtScheduleYear) : Prop :=
  beginMez d = mezDebt /\ mezAmort d = Fin 0 /\ endMez d = mezDebt.

(** The senior debt of a schedule year goes down by the amortization and
    the cash sweep, neither of which is negative. *)
Definition senior_paid_down (d : DebtScheduleYear) : Prop :=
  Fin 0 <= seniorAmort d /\ Fin 0 <= cashSweep d /\
  endSenior d == beginSenior d - seniorAmort d - cashSweep d /\
  endSenior d <= beginSenior d.


(** *** The export sheets *)

(** [insertAscending] and [sortAscending] on rationals. *)
Fixpoint qinsert (x : Q) (xs : list Q) : list Q :=
  match xs with
  | [] => [x]
  | y :: rest => if Qle_bool x y then x :: xs else y :: qinsert x rest
  end.

Definition qsort (xs : list Q) : list Q := fold_right qinsert [] xs.

(** Each rational of the list is at most those after it. *)
Fixpoint ascending (xs : list Q) : Prop :=
  match xs with
  | [] => True
  | x :: rest => Forall (fun y => (x <= y)%Q) rest /\ ascending rest
  end.

(** How many rationals of the list are above [m], and how many below. *)
Definition above (m : Q) (qs : list Q) : nat :=
  List.length (filter (fun q => negb (Qle_bool q m)) qs).

Definition below (m : Q) (qs : list Q) : nat :=
  List.length (filter (fun q => negb (Qle_bool m q)) qs).

(** A peer with all four figures entered, EBITDA and net income
    positive. *)
Definition complete_peer (c : TradingCompEntry) : Prop :=
  exists e ev n mc : Q,
    comp_ebitda c = Fin e /\ (0 < e)%Q /\ comp_ev c = Fin ev /\
    comp_netIncome c = Fin n /\ (0 < n)%Q /\ comp_marketCap c = Fin mc.

(** The scenario with the complete peer alone. *)
Definition one_peer_model : Model := {|
  startingRevenue := Fin 1000000; growthRate := Fin 15;
  cogsMargin := Fin 40; opexMargin := Fin 30; daMargin := Fin 5;
  interestRate := Fin 5; debtBalance := Fin 0; cashBalance := Fin 0;
  sharesOutstanding := Fin 1000000; taxRate := Fin 21;
  arDays := Fin 45; inventoryDays := Fin 60; apDays := Fin 30;
  capexPercent := Fin 5; maintenanceCapexPercent := Fin 2;
  wacc := Fin 10; terminalGrowthRate := Fin 2; exitMultiple := Fin 12;
  useMidYearConvention := Some false;
  tradingComps := [full_peer] |}.

(** *** Portfolios *)


(** The revenue times the growth rate of a metric, the weight the top
    model is chosen by. *)
Definition weightOf (m : ModelMetric) : num := mm_revenue m * mm_growth m.

(** Revenue and growth rate of the metric are numbers. *)
Definition finite_metric (m : ModelMetric) : Prop :=
  isFinite (mm_revenue m) = true /\ isFinite (mm_growth m) = true.

(** * Properties *)

(** Split a conjunction into its conjuncts, without touching them. *)
Ltac conjuncts := repeat match goal with |- _ /\ _ => split end.

(** Close a goal about closed terms by evaluation. *)
Ltac by_evaluation := vm_compute; reflexivity.

(** ** Numbers *)

Lemma safeNumber_finite (v d : num) :
  isFinite d = true -> isFinite (safeNumber v d) = true.
Proof.
  intros Hd. unfold safeNumber. destruct v; simpl; auto.
Qed.


Lemma guard_finite (x : num) : isFinite (guard x) = true.
Proof. destruct x; reflexivity. Qed.

Lemma finite_inv (x : num) : isFinite x = true -> exists q, x = Fin q.
Proof. destruct x; simpl; intros H; try discriminate. eauto. Qed.

Lemma ltb_Fin (a b : Q) : num_ltb (Fin a) (Fin b) = true <-> (a < b)%Q.
Proof.
  simpl. rewrite Qlt_alt. destruct (a ?= b)%Q; split; congruence.
Qed.

Lemma ltb_Fin_false (a b : Q) : num_ltb (Fin a) (Fin b) = false <-> (b <= a)%Q.
Proof.
  rewrite <- Bool.not_true_iff_false, ltb_Fin. split.
  - apply Qnot_lt_le.
  - apply Qle_not_lt.
Qed.

Lemma eqb_Fin (a b : Q) : num_eqb (Fin a) (Fin b) = true <-> (a == b)%Q.
Proof. simpl. apply Qeq_bool_iff. Qed.

Lemma leb_Fin (a b : Q) : num_leb (Fin a) (Fin b) = true <-> (a <= b)%Q.
Proof.
  unfold num_leb. rewrite Bool.orb_true_iff, ltb_Fin, eqb_Fin. split.
  - intros [H|H]; [apply Qlt_le_weak, H | rewrite H; apply Qle_refl].
  - intros H. apply Qle_lteq in H. exact H.
Qed.

Lemma lt_Fin (a b : Q) : Fin a < Fin b <-> (a < b)%Q.
Proof. apply ltb_Fin. Qed.

Lemma le_Fin (a b : Q) : Fin a <= Fin b <-> (a <= b)%Q.
Proof. apply leb_Fin. Qed.

Lemma div_Fin (a b : Q) : ~ (b == 0)%Q -> Fin a / Fin b = Fin (a / b).
Proof.
  intros Hb. unfold num_div, Qsign.
  destruct (b ?= 0)%Q eqn:E; try reflexivity.
  apply Qeq_alt in E. contradiction.
Qed.

Lemma max_Fin (a b : Q) :
  Math_max (Fin a) (Fin b) = if num_ltb (Fin a) (Fin b) then Fin b else Fin a.
Proof. reflexivity. Qed.

Lemma min_Fin (a b : Q) :
  Math_min (Fin a) (Fin b) = if num_ltb (Fin b) (Fin a) then Fin b else Fin a.
Proof. reflexivity. Qed.


Lemma Math_round_finite (x : num) :
  isFinite x = true -> isFinite (Math_round x) = true.
Proof. destruct x; auto. Qed.

Lemma round_Fin (q : Q) :
  Math_round (Fin q) = Fin (inject_Z (Qfloor (q + (1 # 2)))).
Proof. reflexivity. Qed.

Lemma Qis_int_inject_Z (y : Q) (z : Z) : (y == inject_Z z)%Q -> Qis_int y = true.
Proof.
  intros H. unfold Qis_int. rewrite (Qred_complete _ _ H).
  rewrite Qred_identity; [reflexivity|]. apply Z.gcd_1_r.
Qed.

Lemma or_else_Fin (a b : Q) : exists q, or_else (Fin a) (Fin b) = Fin q.
Proof. unfold or_else. destruct (truthy (Fin a)); eauto. Qed.

Lemma Math_min_Fin (a b : Q) :
  exists m, Math_min (Fin a) (Fin b) = Fin m /\ (m <= a)%Q /\ (m <= b)%Q.
Proof.
  rewrite min_Fin. destruct (num_ltb (Fin b) (Fin a)) eqn:E.
  - exists b. apply ltb_Fin in E. repeat split; lra.
  - exists a. apply ltb_Fin_false in E. repeat split; lra.
Qed.

Lemma Math_max_Fin (a b : Q) :
  exists m, Math_max (Fin a) (Fin b) = Fin m /\ (a <= m)%Q /\ (b <= m)%Q /\
            (m == a \/ m == b)%Q.
Proof.
  rewrite max_Fin. destruct (num_ltb (Fin a) (Fin b)) eqn:E.
  - exists b. apply ltb_Fin in E. repeat split; lra.
  - exists a. apply ltb_Fin_false in E. repeat split; lra.
Qed.

Lemma add_Fin (a b : Q) : Fin a + Fin b = Fin (a + b).
Proof. reflexivity. Qed.

Lemma sub_Fin (a b : Q) : Fin a - Fin b = Fin (a - b).
Proof. reflexivity. Qed.

Lemma mul_Fin (a b : Q) : Fin a * Fin b = Fin (a * b).
Proof. reflexivity. Qed.

(** Bring an expression over finite numbers to the form [Fin q], naming
    the results of [Math.max], [Math.min] and [||] with their bounds. *)
Ltac fin_arith :=
  repeat (rewrite ?add_Fin, ?sub_Fin, ?mul_Fin;
          try rewrite !div_Fin by discriminate).

Ltac fin_norm :=
  fin_arith;
  repeat (match goal with
          | |- context [Math_max (Fin ?a) (Fin ?b)] =>
            let m := fresh "m" in
            destruct (Math_max_Fin a b) as (m & -> & ? & ? & ?)
          | |- context [Math_min (Fin ?a) (Fin ?b)] =>
            let m := fresh "m" in
            destruct (Math_min_Fin a b) as (m & -> & ? & ?)
          | |- context [or_else (Fin ?a) (Fin ?b)] =>
            let m := fresh "m" in
            destruct (or_else_Fin a b) as (m & ->)
          end; fin_arith).

(** The floored discount rate is a rational of at least one percent. *)
Lemma waccOf_floor (model : Model) :
  exists w, waccOf model = Fin w /\ (0.01 <= w)%Q.
Proof.
  unfold waccOf.
  destruct (finite_inv _ (safeNumber_finite (wacc model) (Fin 10) eq_refl))
    as [x ->].
  rewrite div_Fin by discriminate. rewrite max_Fin.
  destruct (num_ltb (Fin 0.01) (Fin (x / 100))) eqn:E.
  - exists (x / 100)%Q. split; [reflexivity|].
    apply Qlt_le_weak, ltb_Fin, E.
  - exists 0.01%Q. split; [reflexivity | apply Qle_refl].
Qed.

Lemma terminalGrowthOf_finite (model : Model) :
  exists g, terminalGrowthOf model = Fin g.
Proof.
  unfold terminalGrowthOf.
  destruct (finite_inv _ (safeNumber_finite (terminalGrowthRate model) (Fin 2) eq_refl))
    as [x ->].
  rewrite div_Fin by discriminate. eauto.
Qed.

(** ** The frame of calculateValuation *)

Section Frame.

Variable pow_rest : num -> num -> num.

Lemma same_frame_refl (p : YearProjection) : same_frame p p.
Proof. unfold same_frame. repeat split. Qed.

Lemma discountStep_frame wacc useMidYear idx p s :
  same_frame p (fst (discountStep pow_rest wacc useMidYear idx p s)).
Proof. unfold same_frame. repeat split. Qed.

Lemma discountStep_writes wacc useMidYear idx p s :
  let p' := fst (discountStep pow_rest wacc useMidYear idx p s) in
  fcf p' = ufcf p /\
  discountFactor p' =
    guard (if Fin 1 + wacc >? Fin 0
           then Fin 1 / Math_pow pow_rest (Fin 1 + wacc) (discountPeriod useMidYear idx)
           else Fin 0) /\
  pvOfFcf p' = fcf p' * discountFactor p'.
Proof. repeat split. Qed.

Lemma discountLoop_cons wacc useMidYear idx p rest s :
  discountLoop pow_rest wacc useMidYear idx (p :: rest) s =
  (fst (discountStep pow_rest wacc useMidYear idx p s)
     :: fst (discountLoop pow_rest wacc useMidYear (S idx) rest
               (snd (discountStep pow_rest wacc useMidYear idx p s))),
   snd (discountLoop pow_rest wacc useMidYear (S idx) rest
          (snd (discountStep pow_rest wacc useMidYear idx p s)))).
Proof.
  cbn [discountLoop].
  destruct (discountStep pow_rest wacc useMidYear idx p s) as [p' s'].
  cbn [fst snd].
  destruct (discountLoop pow_rest wacc useMidYear (S idx) rest s') as [r t].
  reflexivity.
Qed.

Lemma discountLoop_frame wacc useMidYear ps :
  forall idx s,
    Forall2 same_frame ps (fst (discountLoop pow_rest wacc useMidYear idx ps s)).
Proof.
  induction ps as [|p rest IH]; intros idx s.
  - constructor.
  - rewrite discountLoop_cons. cbn [fst]. constructor.
    + apply discountStep_frame.
    + apply IH.
Qed.

Lemma discountLoop_length wacc useMidYear ps idx s :
  List.length (fst (discountLoop pow_rest wacc useMidYear idx ps s)) = List.length ps.
Proof.
  symmetry. eapply Forall2_length, discountLoop_frame.
Qed.

Lemma Forall2_last_frame (ps qs : list YearProjection) :
  Forall2 same_frame ps qs ->
  forall d e, same_frame d e -> same_frame (last ps d) (last qs e).
Proof.
  induction 1 as [|p q ps qs Hpq Hrest IH]; intros d e Hde.
  - exact Hde.
  - destruct Hrest as [|p2 q2 ps qs H2 Hrest].
    + exact Hpq.
    + change (same_frame (last (p2 :: ps) d) (last (q2 :: qs) e)).
      apply IH. exact Hde.
Qed.

(** The array after [calculateValuation] is the second component of the
    model's result. *)
Lemma calculateValuation_snd model p ps :
  snd (calculateValuation pow_rest model (p :: ps)) =
  fst (discountLoop pow_rest (waccOf model) (useMidYear_of model) 0 (p :: ps) (Fin 0)).
Proof.
  unfold calculateValuation. fold (waccOf model).
  destruct (discountLoop pow_rest (waccOf model) (useMidYear_of model) 0 (p :: ps) (Fin 0)).
  reflexivity.
Qed.

End Frame.

(** ** The fields of the valuation *)

Section Valuation.

Variable pow_rest : num -> num -> num.

(** The last element after the [forEach] has the frame of the last
    element before it. *)
Lemma last_after_discount model p ps :
  same_frame (last (p :: ps) p)
    (lastOf p (fst (discountLoop pow_rest (waccOf model) (useMidYear_of model)
                      0 (p :: ps) (Fin 0)))).
Proof.
  unfold lastOf. apply Forall2_last_frame.
  - apply discountLoop_frame.
  - apply same_frame_refl.
Qed.

Lemma last_ufcf_after_discount model p ps :
  ufcf (lastOf p (fst (discountLoop pow_rest (waccOf model) (useMidYear_of model)
                         0 (p :: ps) (Fin 0))))
  = ufcf (last (p :: ps) p).
Proof. symmetry. apply (last_after_discount model p ps). Qed.

Lemma last_ebitda_after_discount model p ps :
  ebitda (lastOf p (fst (discountLoop pow_rest (waccOf model) (useMidYear_of model)
                           0 (p :: ps) (Fin 0))))
  = ebitda (last (p :: ps) p).
Proof. symmetry. apply (last_after_discount model p ps). Qed.

(** The record [calculateValuation] returns for a non-empty array, in
    terms of the last projection it was given. *)
Lemma calculateValuation_fields model p ps :
  let w := waccOf model in
  let g := terminalGrowthOf model in
  let lastP := last (p :: ps) p in
  let lastEbitda := or_else (ebitda lastP) (Fin 1) in
  let tvg :=
    if w - g >? Fin 0.001 then (ufcf lastP * (Fin 1 + g)) / (w - g) else Fin 0 in
  let pvTv :=
    if w >? Fin 0
    then tvg / Math_pow pow_rest (Fin 1 + w)
                 (tvDiscountPeriod (useMidYear_of model) (List.length (p :: ps)))
    else Fin 0 in
  let sum := sumPvOfFcfOf pow_rest model (p :: ps) in
  let ev := if isFinite (sum + pvTv) then sum + pvTv else Fin 0 in
  let netDebt :=
    safeNumber (debtBalance model) (Fin 0) - safeNumber (cashBalance model) (Fin 0) in
  let v := fst (calculateValuation pow_rest model (p :: ps)) in
  terminalValueGordon v = guard tvg /\
  terminalValue v = guard tvg /\
  pvOfTerminalValue v = guard pvTv /\
  sumPvFcf v = guard sum /\
  enterpriseValue v = guard ev /\
  equityValue v = guard (ev - netDebt) /\
  impliedMultiple v =
    guard (if num_neqb lastEbitda (Fin 0) then ev / lastEbitda else Fin 0).
Proof.
  intros w g lastP lastEbitda tvg pvTv sum ev netDebt v.
  subst v. unfold calculateValuation.
  fold (waccOf model). fold (terminalGrowthOf model). fold w. fold g.
  pose proof (last_ufcf_after_discount model p ps) as Hu.
  pose proof (last_ebitda_after_discount model p ps) as He.
  pose proof (discountLoop_length pow_rest w (useMidYear_of model)
                (p :: ps) 0 (Fin 0)) as Hl.
  unfold sumPvOfFcfOf in sum. fold w in Hu, He, sum.
  destruct (discountLoop pow_rest w (useMidYear_of model) 0 (p :: ps) (Fin 0))
    as [qs total] eqn:E.
  cbn [fst snd] in *. rewrite Hu, He, Hl.
  fold lastP. fold lastEbitda. fold tvg. fold pvTv. subst sum. fold ev.
  repeat split.
Qed.

(** The inner enterprise value is already guarded. *)
Lemma guard_guarded (x : num) :
  guard (if isFinite x then x else Fin 0) = (if isFinite x then x else Fin 0).
Proof. destruct x; reflexivity. Qed.

Lemma enterpriseValue_finite model ps :
  exists ev, enterpriseValue (fst (calculateValuation pow_rest model ps)) = Fin ev.
Proof.
  apply finite_inv. destruct ps as [|p ps]; [reflexivity|].
  destruct (calculateValuation_fields model p ps)
    as (_ & _ & _ & _ & Hev & _).
  rewrite Hev. apply guard_finite.
Qed.

End Valuation.

Lemma scenario_projections :
  calculateProjections scenario_model = scenario_first :: scenario_rest.
Proof. vm_compute. reflexivity. Qed.

(** ** C1: the discount periods *)

Section Periods.

Variable pow_rest : num -> num -> num.

(** The per-year periods are the ones the convention asks for:
    [i + 0.5] under the mid-year convention, [i + 1] otherwise. *)
Lemma discountPeriod_spec (i : nat) :
  discountPeriod true i = of_nat i + Fin 0.5 /\
  discountPeriod false i = of_nat i + Fin 1.
Proof. split; reflexivity. Qed.

(** The period of the terminal value is the number of projected years
    under either convention. *)
Lemma tvDiscountPeriod_spec (useMidYear : bool) (n : nat) :
  tvDiscountPeriod useMidYear n = of_nat n.
Proof. destruct useMidYear; reflexivity. Qed.

(** The discount factor stored in the element at index [i]. *)
Lemma discountLoop_nth wacc useMidYear ps :
  forall idx s i p,
    nth_error ps i = Some p ->
    exists q,
      nth_error (fst (discountLoop pow_rest wacc useMidYear idx ps s)) i = Some q /\
      discountFactor q =
        guard (if Fin 1 + wacc >? Fin 0
               then Fin 1 / Math_pow pow_rest (Fin 1 + wacc)
                              (discountPeriod useMidYear (idx + i))
               else Fin 0).
Proof.
  induction ps as [|p0 rest IH]; intros idx s i p Hi.
  - destruct i; discriminate Hi.
  - rewrite discountLoop_cons. cbn [fst]. destruct i as [|i].
    + exists (fst (discountStep pow_rest wacc useMidYear idx p0 s)).
      split; [reflexivity|]. rewrite Nat.add_0_r. reflexivity.
    + cbn [nth_error] in *. rewrite Nat.add_succ_r.
      apply (IH (S idx) _ i p Hi).
Qed.

(** In the array a valuation leaves behind, year [i] carries the factor
    of the period [i + 0.5], or [i + 1] when the convention is off. *)
Lemma valuation_discount_factor model ps i p :
  nth_error ps i = Some p ->
  exists q,
    nth_error (snd (calculateValuation pow_rest model ps)) i = Some q /\
    discountFactor q =
      guard (Fin 1 / Math_pow pow_rest (Fin 1 + waccOf model)
                       (of_nat i + if useMidYear_of model then Fin 0.5 else Fin 1)).
Proof.
  intros Hi. destruct ps as [|p0 ps]; [destruct i; discriminate Hi|].
  rewrite calculateValuation_snd.
  destruct (discountLoop_nth (waccOf model) (useMidYear_of model) (p0 :: ps)
              0 (Fin 0) i Hi) as (q & Hq & Hf).
  exists q. split; [exact Hq|]. rewrite Hf. cbn [Nat.add].
  destruct (waccOf_floor model) as (w & -> & Hw).
  assert (Hpos : (Fin 1 + Fin w >? Fin 0) = true).
  { apply ltb_Fin. lra. }
  rewrite Hpos. unfold discountPeriod.
  destruct (useMidYear_of model); reflexivity.
Qed.

(** The present value of the terminal value discounts over [n] periods,
    [n] the number of projected years, whatever the convention. *)
Lemma terminal_value_discounted_over_n model p ps (u : Q) :
  ufcf (last (p :: ps) p) = Fin u ->
  let v := fst (calculateValuation pow_rest model (p :: ps)) in
  pvOfTerminalValue v =
    guard (terminalValueGordon v
             / Math_pow pow_rest (Fin 1 + waccOf model)
                 (of_nat (List.length (p :: ps)))).
Proof.
  intros Hu v.
  destruct (calculateValuation_fields pow_rest model p ps)
    as (Ht & _ & Hpv & _).
  fold v in Ht, Hpv. rewrite Hpv, Ht, Hu, tvDiscountPeriod_spec.
  destruct (waccOf_floor model) as (w & Hw & Hw0).
  destruct (terminalGrowthOf_finite model) as (g & Hg).
  rewrite Hw, Hg. cbn [num_sub num_neg num_add num_mul].
  assert (Hpos : (Fin w >? Fin 0) = true) by (apply ltb_Fin; lra).
  rewrite Hpos.
  destruct (Fin (w + - g) >? Fin 0.001) eqn:E; [|reflexivity].
  rewrite div_Fin; [reflexivity|].
  apply ltb_Fin in E. intros E0. rewrite E0 in E. discriminate E.
Qed.

(** The flag of the convention does not reach the terminal value. *)
Lemma terminal_value_ignores_convention model flag1 flag2 ps :
  pvOfTerminalValue
    (fst (calculateValuation pow_rest (with_useMidYear model flag1) ps))
  = pvOfTerminalValue
      (fst (calculateValuation pow_rest (with_useMidYear model flag2) ps)).
Proof.
  destruct ps as [|p ps]; [reflexivity|].
  destruct (calculateValuation_fields pow_rest (with_useMidYear model flag1) p ps)
    as (_ & _ & H1 & _).
  destruct (calculateValuation_fields pow_rest (with_useMidYear model flag2) p ps)
    as (_ & _ & H2 & _).
  rewrite H1, H2, !tvDiscountPeriod_spec. reflexivity.
Qed.

(** C1 at the scenario with the mid-year convention on (the flag absent):
    the five yearly factors are those of the periods 0.5, 1.5, ..., 4.5,
    and the terminal value [309804 * 1.02 / 0.08 = 3950001] is divided
    by [1.1 ^ 5], five periods and not the 4.5 of the convention. *)
Theorem midyear_terminal_value_uses_five_periods :
  let v := fst (calculateValuation pow_rest midyear_model
                  (calculateProjections midyear_model)) in
  useMidYear_of midyear_model = true /\
  tvDiscountPeriod (useMidYear_of midyear_model) 5 = Fin 5 /\
  terminalValue v == Fin 3950001 /\
  pvOfTerminalValue v == Fin 3950001 / Fin (1.1 ^ 5) /\
  map discountFactor
      (snd (calculateValuation pow_rest midyear_model
              (calculateProjections midyear_model)))
  = map (fun period =>
           guard (Fin 1 / pow_rest (Fin 1 + waccOf midyear_model) (Fin period)))
        [0.5; 1.5; 2.5; 3.5; 4.5]%Q.
Proof.
  cbv zeta. conjuncts; by_evaluation.
Qed.

End Periods.

(** ** C2: the sensitivity grids *)

Section Sensitivity.

Variable pow_rest : num -> num -> num.



(** The entry/exit grid reads neither base multiple: its axes are the
    literals [6..10] and [10..14]. *)
Lemma entryVsExit_axes model ps :
  let s := calculateSensitivity pow_rest model ps in
  rowValues (entryVsExit s) = [Fin 6; Fin 7; Fin 8; Fin 9; Fin 10] /\
  colValues (entryVsExit s) = [Fin 10; Fin 11; Fin 12; Fin 13; Fin 14].
Proof. split; reflexivity. Qed.


End Sensitivity.


(** ** C3: the breakdowns *)

Section Breakdowns.

Variable pow_rest : num -> num -> num.

(** The income-statement breakdowns copy the fields of the projection. *)
Lemma yearBreakdown_copies model p :
  let b := yearBreakdown model p in
  stepValues (yb_grossProfit b) = [revenue p; cogs p; grossProfit p] /\
  stepValues (yb_ebitda b) = [grossProfit p; opex p; ebitda p] /\
  stepValues (yb_ebit b) = [ebitda p; da p; ebit p] /\
  stepValues (yb_netIncome b)
    = [ebit p; interest p; ebt p; tax p; netIncome p].
Proof. repeat split. Qed.

(** The debt step of the equity-value breakdown is the gross debt
    [safeNumber(model.debtBalance, 0)], for every model. *)
Lemma equity_breakdown_steps model ps v :
  let b := vb_equityValue (valuationBreakdown
                             (calculateBreakdowns pow_rest model ps v)) in
  stepValues b
    = [enterpriseValue v; safeNumber (debtBalance model) (Fin 0); equityValue v] /\
  finalValue b = equityValue v.
Proof. split; reflexivity. Qed.

(** For every model and non-empty array, the equity-value breakdown
    lists the enterprise value [ev], the gross debt [d] and the equity
    value [ev - (d - c)], [c] being the cash balance: its steps chain to
    the final value exactly when the cash balance is zero. *)
Lemma equity_breakdown_chain model p ps :
  let v := fst (calculateValuation pow_rest model (p :: ps)) in
  let b := vb_equityValue
             (valuationBreakdown
                (calculateBreakdowns pow_rest model
                   (snd (calculateValuation pow_rest model (p :: ps))) v)) in
  exists ev d c : Q,
    safeNumber (debtBalance model) (Fin 0) = Fin d /\
    safeNumber (cashBalance model) (Fin 0) = Fin c /\
    stepValues b = [Fin ev; Fin d; Fin (ev - (d - c))] /\
    finalValue b = Fin (ev - (d - c)) /\
    ((ev - d == ev - (d - c))%Q <-> (c == 0)%Q).
Proof.
  intros v b.
  destruct (enterpriseValue_finite pow_rest model (p :: ps)) as (ev & Hev).
  destruct (finite_inv _ (safeNumber_finite (debtBalance model) (Fin 0) eq_refl))
    as (d & Hd).
  destruct (finite_inv _ (safeNumber_finite (cashBalance model) (Fin 0) eq_refl))
    as (c & Hc).
  destruct (calculateValuation_fields pow_rest model p ps)
    as (_ & _ & _ & _ & Hev' & Heq & _).
  fold v in Hev, Hev', Heq. rewrite guard_guarded in Hev'.
  rewrite <- Hev', Hev, Hd, Hc in Heq. cbn in Heq.
  exists ev, d, c. split; [exact Hd|]. split; [exact Hc|].
  destruct (equity_breakdown_steps model
              (snd (calculateValuation pow_rest model (p :: ps))) v) as (Hs & Hf).
  fold b in Hs, Hf. rewrite Hs, Hf, Hev, Heq, Hd.
  split; [reflexivity|]. split; [reflexivity|].
  split; intros H; lra.
Qed.

End Breakdowns.

(** C3 on the scenario with 200,000 of debt and 50,000 of cash: the
    equity-value breakdown lists Enterprise Value, then 200,000 under
    "Less: Net Debt", then the Equity Value; the Equity Value is the
    Enterprise Value less the net debt of 150,000, so Enterprise Value
    minus the listed step is not the final value. *)
Theorem equity_breakdown_lists_gross_debt :
  let v := fst (calculateValuation pow_unknown levered_model
                  (calculateProjections levered_model)) in
  let b := vb_equityValue (valuationBreakdown
                             (breakdownsOf pow_unknown levered_model)) in
  stepValues b = [enterpriseValue v; Fin 200000; equityValue v] /\
  map label (steps b)
    = ["Enterprise Value"; "Less: Net Debt"; "Equity Value"]%string /\
  finalValue b = equityValue v /\
  netDebt v == Fin 150000 /\
  equityValue v == enterpriseValue v - Fin 150000 /\
  num_eqb (enterpriseValue v - Fin 200000) (finalValue b) = false.
Proof.
  cbv zeta. conjuncts; by_evaluation.
Qed.

(** The UFCF breakdown computes its "Taxes on EBIT" step afresh: in the
    first year of the loss-making model EBIT is -50,000, the step is 0
    and NOPAT is -39,500, so EBIT less the step is not NOPAT. *)
Lemma ufcf_breakdown_recomputes_tax :
  match yearlyBreakdowns (breakdownsOf pow_unknown zero_ebitda_model) with
  | b :: _ =>
    firstn 3 (stepValues (yb_ufcf b)) = [Fin (-50000); Fin 0; Fin (-39500)]
  | [] => False
  end.
Proof. vm_compute. reflexivity. Qed.

(** ** C4: the implied multiple *)

Section ImpliedMultiple.

Variable pow_rest : num -> num -> num.

(** With a final-year EBITDA that is a number other than zero, the
    implied multiple is the enterprise value divided by it. *)
Lemma implied_multiple_nonzero_ebitda model p ps (e : Q) :
  ebitda (last (p :: ps) p) = Fin e -> ~ (e == 0)%Q ->
  let v := fst (calculateValuation pow_rest model (p :: ps)) in
  impliedMultiple v = enterpriseValue v / Fin e.
Proof.
  intros He Hnz v.
  destruct (enterpriseValue_finite pow_rest model (p :: ps)) as (ev & Hfin).
  fold v in Hfin.
  destruct (calculateValuation_fields pow_rest model p ps)
    as (_ & _ & _ & _ & Hev & _ & Him).
  fold v in Hev, Him. rewrite guard_guarded in Hev. rewrite <- Hev in Him.
  rewrite He in Him. unfold or_else, truthy, num_neqb in Him.
  destruct (Qeq_bool e 0) eqn:E; [apply Qeq_bool_iff in E; contradiction|].
  cbn [negb num_eqb] in Him. rewrite E in Him. cbn [negb] in Him.
  rewrite Him, Hfin, div_Fin by exact Hnz. reflexivity.
Qed.

(** With a final-year EBITDA of zero the divisor falls back to one: the
    implied multiple is the enterprise value itself. *)
Lemma implied_multiple_zero_ebitda model p ps (e : Q) :
  ebitda (last (p :: ps) p) = Fin e -> (e == 0)%Q ->
  let v := fst (calculateValuation pow_rest model (p :: ps)) in
  impliedMultiple v = enterpriseValue v / Fin 1.
Proof.
  intros He Hz v.
  destruct (enterpriseValue_finite pow_rest model (p :: ps)) as (ev & Hfin).
  fold v in Hfin.
  destruct (calculateValuation_fields pow_rest model p ps)
    as (_ & _ & _ & _ & Hev & _ & Him).
  fold v in Hev, Him. rewrite guard_guarded in Hev. rewrite <- Hev in Him.
  rewrite He in Him. unfold or_else, truthy, num_neqb in Him.
  apply Qeq_bool_iff in Hz. rewrite Hz in Him. cbn in Him.
  rewrite Him, Hfin. reflexivity.
Qed.

End ImpliedMultiple.

(** C4 on a model whose final-year EBITDA is zero: the implied multiple
    returned is the enterprise value (about -1,033,219.85), not 0. *)
Theorem implied_multiple_at_zero_ebitda :
  let ps := calculateProjections zero_ebitda_model in
  let v := fst (calculateValuation pow_unknown zero_ebitda_model ps) in
  map ebitda ps = [Fin 0; Fin 0; Fin 0; Fin 0; Fin 0] /\
  impliedMultiple v == enterpriseValue v /\
  enterpriseValue v < Fin (-1033219) /\
  num_eqb (impliedMultiple v) (Fin 0) = false.
Proof.
  cbv zeta. conjuncts; by_evaluation.
Qed.

(** ** C5: the Newton-Raphson solver *)

(** *** Arithmetic of the Newton step *)

Section NewtonArithmetic.

Local Open Scope Q_scope.

Lemma Qpow_succ (a : Q) (n : nat) : a ^ Z.of_nat (S n) == a * a ^ Z.of_nat n.
Proof.
  rewrite Nat2Z.inj_succ, <- Z.add_1_l.
  rewrite Qpower_plus' by lia. rewrite Qpower_1_r. reflexivity.
Qed.



















(** The sums of the inner loop on the bullet flows. *)
Lemma bullet_npv (u P : Q) :
  ~ u == 0 ->
  fst (qnpvLoop u 0 [-100; 0; 0; 0; 0; P] 0 0) == -100 + P / u ^ 5 /\
  snd (qnpvLoop u 0 [-100; 0; 0; 0; 0; P] 0 0) == - (5 * P / u ^ 6).
Proof.
  intros Hu.
  cbn [qnpvLoop fst snd Z.of_nat Pos.of_succ_nat Pos.succ Z.add Pos.add].
  split; field; exact Hu.
Qed.




End NewtonArithmetic.

(** *** The solver on the bullet flows *)

Section Solver.

Variable pow_rest : num -> num -> num.

Lemma Math_pow_int (b y : Q) (z : Z) :
  (y == inject_Z z)%Q -> Math_pow pow_rest (Fin b) (Fin y) = pow_int b z.
Proof.
  intros H. unfold Math_pow. rewrite (Qis_int_inject_Z H).
  rewrite (Qfloor_comp _ _ H), Qfloor_Z. reflexivity.
Qed.

Lemma pow_int_pos (b : Q) (z : Z) : (0 <= z)%Z -> pow_int b z = Fin (b ^ z).
Proof.
  intros H. unfold pow_int.
  replace (z <? 0)%Z with false by (symmetry; apply Z.ltb_ge, H).
  rewrite Bool.andb_false_r. reflexivity.
Qed.

Lemma npvLoop_finite (x : Q) (fs : list Q) :
  (0 < 1 + x)%Q ->
  forall t a d,
    npvLoop pow_rest (Fin x) t (map Fin fs) (Fin a) (Fin d)
    = (Fin (fst (qnpvLoop (1 + x) t fs a d)),
       Fin (snd (qnpvLoop (1 + x) t fs a d))).
Proof.
  intros Hu. induction fs as [|f rest IH]; intros t a d.
  - reflexivity.
  - cbn [map npvLoop qnpvLoop]. unfold of_nat. rewrite !add_Fin.
    rewrite (Math_pow_int (1 + x) (z := Z.of_nat t)) by reflexivity.
    rewrite (Math_pow_int (1 + x) (y := inject_Z (Z.of_nat t) + 1) (z := Z.of_nat t + 1))
      by (rewrite inject_Z_plus; reflexivity).
    rewrite !pow_int_pos by lia.
    rewrite mul_Fin.
    rewrite !div_Fin by (apply Qpower_not_0; lra).
    rewrite add_Fin, sub_Fin. apply IH.
Qed.

(** One turn of the outer loop on the bullet flows. *)
Lemma irrLoop_bullet (r x : Q) (n : nat) :
  (0 < 1 + x)%Q ->
  irrLoop pow_rest (bulletFlows r) (S n) (Fin x)
  = let nd := qnpvLoop (1 + x) 0 [-100; 0; 0; 0; 0; 100 * (1 + r) ^ 5]%Q 0 0 in
    if Fin (Qabs (fst nd)) <? Fin 0.0001 then Fin x
    else if Fin (Qabs (snd nd)) <? Fin 0.0001 then Fin x
    else
      let rate := Fin x - Fin (fst nd) / Fin (snd nd) in
      let rate := if rate <? Fin (-0.99) then Fin (-0.99) else rate in
      let rate := if rate >? Fin 10 then Fin 10 else rate in
      irrLoop pow_rest (bulletFlows r) n rate.
Proof.
  intros Hu. cbn [irrLoop].
  change (bulletFlows r)
    with (map Fin [-100; 0; 0; 0; 0; 100 * (1 + r) ^ 5]%Q) at 1.
  rewrite (npvLoop_finite _ Hu). reflexivity.
Qed.





(** Below that payoff the derivative test ends the loop on its first
    turn, and the solver answers with its initial guess. *)
Lemma irr_stuck_at_initial_guess (r : Q) :
  (-0.99 <= r)%Q -> ((1 + r) ^ 5 < 0.0000002 * 1.15 ^ 6)%Q ->
  calculateIRR pow_rest (bulletFlows r) = Fin (0.15 * 100).
Proof.
  intros Hr0 Hpay. unfold calculateIRR.
  set (U := (1 + r)%Q) in *.
  assert (HU : (0 < U)%Q) by (unfold U; lra).
  assert (HU5 : (0 < U ^ 5)%Q) by (apply Qpower_0_lt, HU).
  assert (Hu : (0 < 1 + 0.15)%Q) by reflexivity.
  rewrite (irrLoop_bullet r 99 Hu). fold U. cbv zeta.
  destruct (bullet_npv (100 * U ^ 5) (u := (1 + 0.15)%Q)) as (HN & HD);
    [discriminate|].
  set (N := fst (qnpvLoop (1 + 0.15) 0 [-100; 0; 0; 0; 0; 100 * U ^ 5]%Q 0 0)) in *.
  set (D := snd (qnpvLoop (1 + 0.15) 0 [-100; 0; 0; 0; 0; 100 * U ^ 5]%Q 0 0)) in *.
  assert (Hc6 : ((1 + 0.15) ^ 6 == 1.15 ^ 6)%Q) by reflexivity.
  assert (Hc5 : ((1 + 0.15) ^ 5 * 1.15 == 1.15 ^ 6)%Q) by reflexivity.
  assert (Hp5 : (0 < (1 + 0.15) ^ 5)%Q) by reflexivity.
  assert (Hp6 : (0 < (1 + 0.15) ^ 6)%Q) by reflexivity.
  set (c5 := ((1 + 0.15) ^ 5)%Q) in *. set (c6 := ((1 + 0.15) ^ 6)%Q) in *.
  set (d6 := (1.15 ^ 6)%Q) in *.
  assert (HNneg : (100 * U ^ 5 / c5 <= 1)%Q).
  { apply Qle_shift_div_r; [exact Hp5 | lra]. }
  assert (EN : (Fin (Qabs N) <? Fin 0.0001) = false).
  { apply ltb_Fin_false. rewrite HN.
    rewrite <- Qabs_opp, Qabs_pos; lra. }
  rewrite EN.
  assert (HDsmall : (5 * (100 * U ^ 5) / c6 < 0.0001)%Q).
  { apply Qlt_shift_div_r; [exact Hp6 | lra]. }
  assert (HDpos : (0 <= 5 * (100 * U ^ 5) / c6)%Q).
  { apply Qle_shift_div_l; [exact Hp6 | lra]. }
  assert (ED : (Fin (Qabs D) <? Fin 0.0001) = true).
  { apply ltb_Fin. rewrite HD, Qabs_opp, Qabs_pos; assumption. }
  rewrite ED. reflexivity.
Qed.

End Solver.



(** ** C6: the cash sweep *)

Lemma scheduleYear_sweep (sd pct sr mr sb mb : Q) (yr : nat) (proj : YearProjection) :
  finite_inputs proj ->
  let d := scheduleYear (Fin sd) (Fin pct) (Fin sr) (Fin mr) yr proj (Fin sb) (Fin mb) in
  sweep_within_balance d /\ isFinite (endSenior d) = true /\ endMez d = Fin mb.
Proof.
  intros (He & Hc & Hw) d.
  destruct (finite_inv _ He) as (e & Ee).
  destruct (finite_inv _ Hc) as (c & Ec).
  destruct (finite_inv _ Hw) as (w & Ew).
  subst d. unfold sweep_within_balance, scheduleYear.
  cbn [cashSweep beginSenior seniorAmort endSenior endMez].
  rewrite Ee, Ec, Ew. fin_norm.
  repeat split.
  - apply le_Fin. lra.
  - apply le_Fin. lra.
Qed.

(** C6: in every year of the debt schedule built from numbers, the cash
    sweep is at most the senior balance at the beginning of the year less
    the mandatory amortization of the year (the amortization the schedule
    records, [min(seniorDebt * pct, beginSenior)]), and the senior balance
    at the end of the year is not negative.  Nothing on the signs of the
    balances or of the paydown percentage is needed. *)
Theorem cash_sweep_never_overpays
    (seniorDebt annualDebtPaydownPct seniorInterestRate mezInterestRate : num)
    (ps : list YearProjection) :
  isFinite seniorDebt = true -> isFinite annualDebtPaydownPct = true ->
  isFinite seniorInterestRate = true -> isFinite mezInterestRate = true ->
  Forall finite_inputs ps ->
  forall (yr : nat) (seniorBalance mezBalance : num),
    isFinite seniorBalance = true -> isFinite mezBalance = true ->
    Forall sweep_within_balance
      (debtScheduleLoop seniorDebt annualDebtPaydownPct seniorInterestRate
         mezInterestRate yr ps seniorBalance mezBalance).
Proof.
  intros Hsd Hpct Hsr Hmr Hps.
  destruct (finite_inv _ Hsd) as (sd & ->).
  destruct (finite_inv _ Hpct) as (pct & ->).
  destruct (finite_inv _ Hsr) as (sr & ->).
  destruct (finite_inv _ Hmr) as (mr & ->).
  induction Hps as [|proj rest Hproj Hrest IH]; intros yr sb mb Hsb Hmb.
  - constructor.
  - destruct (finite_inv _ Hsb) as (b & ->).
    destruct (finite_inv _ Hmb) as (m & ->).
    destruct (scheduleYear_sweep sd pct sr mr b m yr Hproj) as (Hd & Hfin & Hmez).
    cbn [debtScheduleLoop]. constructor.
    + exact Hd.
    + apply IH; [exact Hfin | rewrite Hmez; reflexivity].
Qed.

(** The schedule of the LBO sheet is the loop run on the entry debt for
    the years of the holding period. *)
Lemma lboScenario_debtSchedule pow_rest a ps :
  let sc := lboScenario pow_rest a ps in
  debtSchedule sc
  = debtScheduleLoop (seniorDebt sc)
      (or_else (lbo_annualDebtPaydown a) (Fin 6))
      (or_else (lbo_seniorDebtRate a) (Fin 6))
      (or_else (lbo_mezDebtRate a) (Fin 12))
      0 (firstn (holdingPeriodOf a) ps) (seniorDebt sc) (mezDebt sc).
Proof. reflexivity. Qed.

(** The loop of the IRR grid goes through the same years: its cash flows
    are the distributable cash flows of the schedule. *)
Lemma scenarioLoop_schedule sd pct sr mr ps :
  forall yr sb mb,
    fst (scenarioLoop sd pct sr mr yr ps sb mb)
    = map distributableFcf (debtScheduleLoop sd pct sr mr yr ps sb mb).
Proof.
  induction ps as [|proj rest IH]; intros yr sb mb.
  - reflexivity.
  - cbn [scenarioLoop debtScheduleLoop map].
    specialize (IH (S yr) (endSenior (scheduleYear sd pct sr mr yr proj sb mb)) mb).
    destruct (scenarioLoop sd pct sr mr (S yr) rest
                (endSenior (scheduleYear sd pct sr mr yr proj sb mb)) mb)
      as [fcfs final].
    cbn [fst] in *. rewrite IH. reflexivity.
Qed.

(** C6 at work: the schedule of the scenario under the default LBO
    assumptions (senior debt 1,200,000, mezzanine 240,000, 6% paydown,
    rates of 6% and 12%, five years). *)
Lemma cash_sweep_witness :
  let sc := lboScenario pow_unknown default_lbo (scenario_first :: scenario_rest) in
  (seniorDebt sc = Fin 1200000 /\ mezDebt sc == Fin 240000 /\
   List.length (debtSchedule sc) = 5%nat) /\
  Forall sweep_within_balance (debtSchedule sc).
Proof.
  cbv zeta. split.
  - conjuncts; lazy; reflexivity.
  - rewrite lboScenario_debtSchedule.
    apply cash_sweep_never_overpays; try (lazy; reflexivity).
    repeat constructor.
Defined.

(** ** C7: calculateValuation writes into its argument *)

Section SideEffects.

Variable pow_rest : num -> num -> num.

Lemma discountLoop_assigns wacc useMidYear ps :
  forall idx s,
    Forall2 assigned_by_valuation ps
      (fst (discountLoop pow_rest wacc useMidYear idx ps s)).
Proof.
  induction ps as [|p rest IH]; intros idx s.
  - constructor.
  - rewrite discountLoop_cons. cbn [fst]. constructor.
    + split; [apply discountStep_frame | split; reflexivity].
    + apply IH.
Qed.


End SideEffects.


(** ** C8: revenue growth *)









(** ** C9: the Gordon Growth terminal value *)

Section Gordon.

Variable pow_rest : num -> num -> num.


End Gordon.


(** ** C10: a peer without EBITDA or net income *)

Lemma positiveFinite_Fin (q : Q) : (0 < q)%Q -> positiveFinite (Fin q) = true.
Proof.
  intros H. unfold positiveFinite, num_gtb. cbn [isFinite andb].
  apply ltb_Fin, H.
Qed.

Lemma div_one_pos (q : Q) : (0 < q)%Q -> (0 < q / 1)%Q.
Proof.
  intros H. unfold Qdiv. setoid_replace (q * / 1)%Q with q; [exact H|].
  field.
Qed.

Lemma evEbitdaOf_absent (c : TradingCompEntry) (ev : Q) :
  isFinite (comp_ebitda c) = false -> comp_ev c = Fin ev ->
  evEbitdaOf c = Fin ev / Fin 1.
Proof.
  intros Hn Hev. unfold evEbitdaOf. rewrite Hev.
  destruct (comp_ebitda c); try discriminate Hn; reflexivity.
Qed.


Lemma filter_map_middle (f : TradingCompEntry -> num) pre c post (v : num) :
  f c = v -> positiveFinite v = true ->
  filter positiveFinite (map f (pre ++ c :: post))
  = filter positiveFinite (map f pre) ++ v :: filter positiveFinite (map f post).
Proof.
  intros Hv Hp. rewrite map_app, filter_app. cbn [map filter].
  rewrite Hv, Hp. reflexivity.
Qed.

(** The averages [calculateTradingComps] returns, when there is a peer
    and a projection. *)
Lemma calculateTradingComps_averages model p ps c cs :
  tradingComps model = c :: cs ->
  let out := calculateTradingComps model (p :: ps) in
  avgEvEbitda out = guard (average (evEbitdas (c :: cs))) /\
  avgPe out = guard (average (pes (c :: cs))).
Proof.
  intros Hc. unfold calculateTradingComps. rewrite Hc. split; reflexivity.
Qed.



(** * Further properties of the engine *)

(** ** Finite numbers *)

Lemma isFinite_add (x y : num) :
  isFinite x = true -> isFinite y = true -> isFinite (x + y) = true.
Proof. destruct x, y; simpl; intros; try discriminate; reflexivity. Qed.

Lemma isFinite_sub (x y : num) :
  isFinite x = true -> isFinite y = true -> isFinite (x - y) = true.
Proof. destruct x, y; simpl; intros; try discriminate; reflexivity. Qed.

Lemma isFinite_mul (x y : num) :
  isFinite x = true -> isFinite y = true -> isFinite (x * y) = true.
Proof. destruct x, y; simpl; intros; try discriminate; reflexivity. Qed.

Lemma isFinite_div (x : num) (c : Q) :
  isFinite x = true -> ~ (c == 0)%Q -> isFinite (x / Fin c) = true.
Proof.
  intros Hx Hc. destruct (finite_inv _ Hx) as (q & ->).
  rewrite div_Fin by exact Hc. reflexivity.
Qed.

Lemma isFinite_div_100 (x : num) :
  isFinite x = true -> isFinite (x / Fin 100) = true.
Proof. intros H. apply isFinite_div; [exact H | discriminate]. Qed.

Lemma isFinite_div_365 (x : num) :
  isFinite x = true -> isFinite (x / Fin 365) = true.
Proof. intros H. apply isFinite_div; [exact H | discriminate]. Qed.

Lemma isFinite_round (x : num) :
  isFinite x = true -> isFinite (Math_round x) = true.
Proof. destruct x; auto. Qed.

Lemma isFinite_max (x y : num) :
  isFinite x = true -> isFinite y = true -> isFinite (Math_max x y) = true.
Proof.
  intros Hx Hy. destruct (finite_inv _ Hx) as (a & ->).
  destruct (finite_inv _ Hy) as (b & ->). rewrite max_Fin.
  destruct (num_ltb (Fin a) (Fin b)); reflexivity.
Qed.

Lemma isFinite_min (x y : num) :
  isFinite x = true -> isFinite y = true -> isFinite (Math_min x y) = true.
Proof.
  intros Hx Hy. destruct (finite_inv _ Hx) as (a & ->).
  destruct (finite_inv _ Hy) as (b & ->). rewrite min_Fin.
  destruct (num_ltb (Fin b) (Fin a)); reflexivity.
Qed.

Lemma isFinite_if (b : bool) (x y : num) :
  isFinite x = true -> isFinite y = true ->
  isFinite (if b then x else y) = true.
Proof. destruct b; auto. Qed.

Lemma isFinite_Fin (q : Q) : isFinite (Fin q) = true.
Proof. reflexivity. Qed.

Lemma isFinite_safeNumber (v : num) (q : Q) :
  isFinite (safeNumber v (Fin q)) = true.
Proof. apply safeNumber_finite. reflexivity. Qed.

Create HintDb finite.

#[export] Hint Resolve isFinite_add isFinite_sub isFinite_mul isFinite_div_100
  isFinite_div_365 isFinite_round isFinite_max isFinite_min isFinite_if
  isFinite_Fin isFinite_safeNumber : finite.

(** ** calculateProjections: what every model gets *)

Lemma round_nonneg (x : Q) :
  (0 <= x)%Q -> (0 <= inject_Z (Qfloor (x + (1 # 2))))%Q.
Proof.
  intros H. change 0%Q with (inject_Z 0). rewrite <- Zle_Qle.
  change 0%Z with (Qfloor 0). apply Qfloor_resp_le. lra.
Qed.

Lemma max_floor_finite (x : num) :
  isFinite x = true -> isFinite (Math_max (Fin 0) x) = true.
Proof. auto with finite. Qed.

Lemma max_floor_nonneg (x : num) :
  isFinite x = true -> Fin 0 <= Math_max (Fin 0) x.
Proof.
  intros H. destruct (finite_inv _ H) as (q & ->).
  destruct (Math_max_Fin 0 q) as (m & -> & Hm & _). apply le_Fin, Hm.
Qed.

Section ProjectionLoop.

Variables g cm om dm ir db tr ar inv ap cp mcp : num.

Local Abbreviation loop := (projectionLoop g cm om dm ir db tr ar inv ap cp mcp).
Local Abbreviation yearOf := (projectionOfYear g cm om dm ir db tr ar inv ap cp mcp).

Lemma projectionLoop_S (n yr : nat) (rev prev : num) :
  loop (S n) yr rev prev
  = yearOf yr rev prev
      :: loop n (S yr) (nextRevenue g rev)
           (netWorkingCapital (yearOf yr rev prev)).
Proof. reflexivity. Qed.


Lemma yearOf_changeInNwc (yr : nat) (rev prev : num) :
  changeInNwc (yearOf yr rev prev)
  = if Nat.eqb yr 1 then netWorkingCapital (yearOf yr rev prev)
    else netWorkingCapital (yearOf yr rev prev) - prev.
Proof. reflexivity. Qed.

Lemma nextRevenue_positive (q : Q) :
  isFinite g = true ->
  exists q', nextRevenue g (Fin q) = Fin q' /\ (0 < q')%Q.
Proof.
  intros Hg. destruct (finite_inv _ Hg) as (gq & ->). unfold nextRevenue.
  rewrite div_Fin by discriminate. rewrite add_Fin, mul_Fin, round_Fin.
  set (r1 := inject_Z (Qfloor (q * (1 + gq / 100) + (1 # 2)))).
  destruct (Fin r1 <=? Fin 0) eqn:E.
  - exists 1%Q. split; reflexivity.
  - exists r1. split; [reflexivity|].
    apply Qnot_le_lt. intros H. apply leb_Fin in H. congruence.
Qed.

Hypothesis Hg : isFinite g = true.
Hypothesis Hcm : isFinite cm = true.
Hypothesis Hom : isFinite om = true.
Hypothesis Hdm : isFinite dm = true.
Hypothesis Hir : isFinite ir = true.
Hypothesis Hdb : isFinite db = true.
Hypothesis Htr : isFinite tr = true.
Hypothesis Har : isFinite ar = true.
Hypothesis Hinv : isFinite inv = true.
Hypothesis Hap : isFinite ap = true.
Hypothesis Hcp : isFinite cp = true.
Hypothesis Hmcp : isFinite mcp = true.

(** What holds of each year the loop pushes holds of all of them: the
    revenue the loop carries is a positive number and the working
    capital it carries is a number. *)
Lemma projectionLoop_invariant (P : YearProjection -> Prop) :
  (forall yr q prev,
      (0 < q)%Q -> isFinite prev = true -> P (yearOf yr (Fin q) prev)) ->
  forall n yr q prev,
    (0 < q)%Q -> isFinite prev = true -> Forall P (loop n yr (Fin q) prev).
Proof.
  intros HP.
  assert (Hnwc : forall yr q prev,
             isFinite prev = true ->
             isFinite (netWorkingCapital (yearOf yr (Fin q) prev)) = true).
  { intros yr q prev Hprev. unfold projectionOfYear.
    cbn [projectionLoop netWorkingCapital]. auto 20 with finite. }
  induction n as [|n IH]; intros yr q prev Hq Hprev.
  - constructor.
  - rewrite projectionLoop_S. constructor; [apply HP; assumption|].
    destruct (nextRevenue_positive q Hg) as (q' & -> & Hq').
    apply IH; [exact Hq'|]. apply Hnwc, Hprev.
Qed.

Lemma yearOf_finite (yr : nat) (q : Q) (prev : num) :
  (0 < q)%Q -> isFinite prev = true ->
  all_finite (yearOf yr (Fin q) prev) /\ Fin 0 < revenue (yearOf yr (Fin q) prev).
Proof.
  intros Hq Hprev.
  assert (Hpos : (Fin q >? Fin 0) = true) by (apply ltb_Fin, Hq).
  assert (Hnz : ~ (q == 0)%Q) by lra.
  split; [|exact Hpos].
  unfold all_finite, projectionOfYear.
  cbn [projectionLoop revenue cogs grossProfit opex ebitda da ebit interest
       ebt tax netIncome revenueGrowth ebitdaMargin netMargin
       accountsReceivable inventory accountsPayable netWorkingCapital
       changeInNwc capex maintenanceCapex growthCapex nopat ufcf fcf
       discountFactor pvOfFcf].
  rewrite Hpos.
  repeat match goal with |- _ /\ _ => split end;
    try (apply isFinite_mul; [apply isFinite_div; [|exact Hnz]|]);
    auto 20 with finite.
Qed.

Hypothesis Hcm0 : Fin 0 <= cm.
Hypothesis Hom0 : Fin 0 <= om.
Hypothesis Hdm0 : Fin 0 <= dm.
Hypothesis Htr0 : Fin 0 <= tr.

Lemma cost_nonneg (q : Q) (m : num) :
  (0 < q)%Q -> isFinite m = true -> Fin 0 <= m ->
  Fin 0 <= Math_round (Fin q * (m / Fin 100)).
Proof.
  intros Hq Hm H0. destruct (finite_inv _ Hm) as (x & ->).
  apply le_Fin in H0. rewrite div_Fin by discriminate.
  rewrite mul_Fin, round_Fin. apply le_Fin, round_nonneg.
  apply Qmult_le_0_compat; [lra|]. apply Qle_shift_div_l; lra.
Qed.

Lemma yearOf_costs (yr : nat) (q : Q) (prev : num) :
  (0 < q)%Q -> isFinite prev = true ->
  costs_nonnegative (yearOf yr (Fin q) prev).
Proof.
  intros Hq Hprev.
  destruct (yearOf_finite yr prev Hq Hprev) as (Hfin & _).
  assert (Hebt : isFinite (ebt (yearOf yr (Fin q) prev)) = true) by apply Hfin.
  revert Hebt. unfold costs_nonnegative, projectionOfYear.
  cbn [projectionLoop cogs opex da tax netIncome ebt].
  set (e := _ - Math_round (db * (ir / Fin 100))).
  intros He. destruct (finite_inv _ He) as (x & Ex). rewrite Ex.
  repeat match goal with |- _ /\ _ => split end;
    try (apply cost_nonneg; assumption).
  - destruct (Fin x >? Fin 0) eqn:E; [|apply le_Fin; lra].
    apply ltb_Fin in E.
    destruct (finite_inv _ Htr) as (t & Et). rewrite Et in *.
    apply le_Fin in Htr0. rewrite div_Fin by discriminate.
    rewrite mul_Fin, round_Fin. apply le_Fin, round_nonneg.
    apply Qmult_le_0_compat; [lra|]. apply Qle_shift_div_l; lra.
  - destruct (Fin x >? Fin 0) eqn:E.
    + apply ltb_Fin in E.
      destruct (finite_inv _ Htr) as (t & Et). rewrite Et in *.
      apply le_Fin in Htr0. rewrite div_Fin by discriminate.
      rewrite mul_Fin, round_Fin, sub_Fin. apply le_Fin.
      assert (0 <= inject_Z (Qfloor (x * (t / 100) + (1 # 2))))%Q.
      { apply round_nonneg. apply Qmult_le_0_compat; [lra|].
        apply Qle_shift_div_l; lra. }
      lra.
    + rewrite sub_Fin. apply le_Fin. lra.
  - intros Hle. apply le_Fin in Hle.
    destruct (Fin x >? Fin 0) eqn:E; [|reflexivity].
    apply ltb_Fin in E. lra.
Qed.

(** The changes in working capital from a year after the first add up
    to the working capital of the last year less the one carried in. *)
Lemma changeInNwc_telescopes (d : YearProjection) (n : nat) :
  forall yr q pq a,
    (2 <= yr)%nat -> (0 < q)%Q ->
    exists s w,
      fold_left num_add (map changeInNwc (loop (S n) yr (Fin q) (Fin pq))) (Fin a)
      = Fin s /\
      netWorkingCapital (last (loop (S n) yr (Fin q) (Fin pq)) d) = Fin w /\
      (s == a + w - pq)%Q.
Proof.
  induction n as [|n IH]; intros yr q pq a Hyr Hq.
  - rewrite projectionLoop_S. cbn [projectionLoop map fold_left last].
    rewrite yearOf_changeInNwc.
    replace (Nat.eqb yr 1) with false
      by (symmetry; apply Nat.eqb_neq; lia).
    destruct (yearOf_finite yr (Fin pq) Hq eq_refl) as (Hfin & _).
    assert (Hw : isFinite (netWorkingCapital (yearOf yr (Fin q) (Fin pq))) = true)
      by apply Hfin.
    destruct (finite_inv _ Hw) as (w & ->).
    exists (a + (w - pq))%Q, w. repeat split. lra.
  - rewrite projectionLoop_S. cbn [map fold_left].
    rewrite yearOf_changeInNwc.
    replace (Nat.eqb yr 1) with false
      by (symmetry; apply Nat.eqb_neq; lia).
    destruct (yearOf_finite yr (Fin pq) Hq eq_refl) as (Hfin & _).
    assert (Hw : isFinite (netWorkingCapital (yearOf yr (Fin q) (Fin pq))) = true)
      by apply Hfin.
    destruct (finite_inv _ Hw) as (w1 & ->).
    destruct (nextRevenue_positive q Hg) as (q' & -> & Hq').
    destruct (IH (S yr) q' w1 (a + (w1 - pq))%Q) as (s & w & Hs & Hl & E);
      [lia | exact Hq' |].
    exists s, w. split; [exact Hs|]. split.
    + rewrite <- Hl. rewrite (projectionLoop_S n). reflexivity.
    + lra.
Qed.

(** From the first year, which books its whole working capital as a
    change, the changes add up to the working capital of the last year. *)
Lemma changeInNwc_add_up (d : YearProjection) (n : nat) (q : Q) :
  (0 < q)%Q ->
  sumOf (map changeInNwc (loop (S n) 1 (Fin q) (Fin 0)))
  == netWorkingCapital (last (loop (S n) 1 (Fin q) (Fin 0)) d).
Proof.
  intros Hq. unfold sumOf.
  rewrite projectionLoop_S. cbn [map fold_left].
  rewrite yearOf_changeInNwc. cbn [Nat.eqb].
  destruct (yearOf_finite 1 (Fin 0) Hq eq_refl) as (Hfin & _).
  assert (Hw : isFinite (netWorkingCapital (yearOf 1%nat (Fin q) (Fin 0))) = true)
    by apply Hfin.
  destruct (finite_inv _ Hw) as (w1 & Ew). rewrite Ew, add_Fin.
  destruct n as [|n].
  - cbn [projectionLoop map fold_left last]. rewrite Ew. apply eqb_Fin. lra.
  - destruct (nextRevenue_positive q Hg) as (q' & -> & Hq').
    destruct (changeInNwc_telescopes d n (yr := 2) w1 (0 + w1)%Q (le_n 2) Hq')
      as (s & w & Hs & Hl & E).
    rewrite Hs.
    match goal with
    | |- _ == netWorkingCapital (last (_ :: ?l) d) =>
      replace (last (_ :: l) d) with (last l d)
        by (rewrite (projectionLoop_S n); reflexivity)
    end.
    rewrite Hl. apply eqb_Fin. lra.
Qed.

End ProjectionLoop.

#[export] Hint Resolve max_floor_nonneg : finite.

Lemma startingRevenue_positive (model : Model) :
  exists q,
    (if safeNumber (startingRevenue model) (Fin 1000000) >? Fin 0
     then safeNumber (startingRevenue model) (Fin 1000000) else Fin 1) = Fin q /\
    (0 < q)%Q.
Proof.
  destruct (finite_inv _ (isFinite_safeNumber (startingRevenue model) 1000000))
    as (x & ->).
  destruct (Fin x >? Fin 0) eqn:E.
  - exists x. split; [reflexivity | apply ltb_Fin, E].
  - exists 1%Q. split; reflexivity.
Qed.

(** The cash flow of every projected year is a number. *)
Lemma projections_ufcf_finite (model : Model) :
  Forall (fun p => isFinite (ufcf p) = true) (calculateProjections model).
Proof.
  unfold calculateProjections.
  destruct (startingRevenue_positive model) as (q & -> & Hq).
  apply projectionLoop_invariant; auto with finite.
  intros yr q0 prev Hq0 Hprev.
  match goal with
  | |- isFinite (ufcf ?y) = true =>
    assert (H : all_finite y /\ Fin 0 < revenue y)
      by (apply yearOf_finite; auto with finite)
  end.
  apply H.
Qed.


(** X2: in every projected year of every model the cost of goods sold,
    the operating expenses, the depreciation and the tax are not
    negative; the tax is zero when the earnings before tax are not
    positive, so a loss earns no tax credit and the net income never
    exceeds the earnings before tax. *)
Theorem projected_costs_and_tax_nonnegative (model : Model) :
  Forall costs_nonnegative (calculateProjections model).
Proof.
  unfold calculateProjections.
  destruct (startingRevenue_positive model) as (q & -> & Hq).
  apply projectionLoop_invariant; auto with finite.
  intros yr q0 prev Hq0 Hprev. apply yearOf_costs; auto with finite.
Qed.

(** X3: the yearly changes in net working capital of the five projected
    years add up to the net working capital of the last year, for every
    model: the first year books its whole working capital as a change,
    each later year the difference to the year before. *)
Theorem nwc_changes_add_up_to_final_nwc (model : Model) (d : YearProjection) :
  sumOf (map changeInNwc (calculateProjections model))
  == netWorkingCapital (last (calculateProjections model) d).
Proof.
  unfold calculateProjections.
  destruct (startingRevenue_positive model) as (q & -> & Hq).
  apply changeInNwc_add_up; auto with finite.
Qed.

(** ** calculateValuation: the bridge from cash flows to equity *)

Section Bridge.

Variable pow_rest : num -> num -> num.

(** The running sum of the [forEach] is a number whatever the cash flows
    are: what is not finite is left out of it. *)
Lemma discountLoop_sum_finite wacc useMidYear ps :
  forall idx s,
    isFinite s = true ->
    isFinite (snd (discountLoop pow_rest wacc useMidYear idx ps s)) = true.
Proof.
  induction ps as [|p rest IH]; intros idx s Hs.
  - exact Hs.
  - rewrite discountLoop_cons. cbn [snd]. apply IH.
    unfold discountStep. cbn [snd].
    match goal with
    | |- context [if isFinite ?x then ?x else Fin 0] =>
      change (if isFinite x then x else Fin 0) with (guard x)
    end.
    apply isFinite_add; [exact Hs | apply guard_finite].
Qed.

(** The power that discounts the terminal value: a positive rational. *)
Lemma tv_discount_power (w : Q) (useMidYear : bool) (n : nat) :
  (0 < 1 + w)%Q ->
  Math_pow pow_rest (Fin 1 + Fin w) (tvDiscountPeriod useMidYear n)
  = Fin ((1 + w) ^ Z.of_nat n) /\ (0 < (1 + w) ^ Z.of_nat n)%Q.
Proof.
  intros Hw. rewrite tvDiscountPeriod_spec. unfold of_nat. rewrite add_Fin.
  rewrite (Math_pow_int pow_rest (1 + w) (z := Z.of_nat n)) by reflexivity.
  rewrite pow_int_pos by lia. split; [reflexivity|].
  apply Qpower_0_lt, Hw.
Qed.

(** With a finite last cash flow, the three quantities that make up the
    enterprise value are numbers. *)
Lemma valuation_parts_finite model p ps :
  isFinite (ufcf (last (p :: ps) p)) = true ->
  let w := waccOf model in
  let g := terminalGrowthOf model in
  let tvg :=
    if w - g >? Fin 0.001
    then (ufcf (last (p :: ps) p) * (Fin 1 + g)) / (w - g) else Fin 0 in
  let pvTv :=
    if w >? Fin 0
    then tvg / Math_pow pow_rest (Fin 1 + w)
                 (tvDiscountPeriod (useMidYear_of model) (List.length (p :: ps)))
    else Fin 0 in
  exists s t x : Q,
    sumPvOfFcfOf pow_rest model (p :: ps) = Fin s /\ tvg = Fin t /\ pvTv = Fin x.
Proof.
  intros Hu w g tvg pvTv. subst pvTv tvg w g. unfold sumPvOfFcfOf.
  destruct (finite_inv _ Hu) as (u & ->).
  destruct (waccOf_floor model) as (w & -> & Hw).
  destruct (terminalGrowthOf_finite model) as (g & ->).
  destruct (finite_inv _ (discountLoop_sum_finite (Fin w) (useMidYear_of model)
                            (p :: ps) 0 (Fin 0) eq_refl)) as (s & Hs).
  rewrite Hs. exists s.
  assert (Ht : exists t,
             (if Fin w - Fin g >? Fin 0.001
              then Fin u * (Fin 1 + Fin g) / (Fin w - Fin g) else Fin 0) = Fin t).
  { rewrite sub_Fin, add_Fin, mul_Fin.
    destruct (Fin (w - g) >? Fin 0.001) eqn:E; [|eauto].
    apply ltb_Fin in E. rewrite div_Fin; [eauto|].
    intros E0. rewrite E0 in E. discriminate E. }
  destruct Ht as (t & ->). exists t.
  assert (Hpos : (Fin w >? Fin 0) = true) by (apply ltb_Fin; lra).
  rewrite Hpos.
  destruct (@tv_discount_power w (useMidYear_of model) (List.length (p :: ps)))
    as (-> & Hp); [lra|].
  rewrite div_Fin by lra. eauto.
Qed.

(** The fields of the returned record that follow the enterprise value. *)
Lemma calculateValuation_equity_fields model p ps :
  let sum := sumPvOfFcfOf pow_rest model (p :: ps) in
  let shares := safeNumber (sharesOutstanding model) (Fin 1000000) in
  let netDebt0 :=
    safeNumber (debtBalance model) (Fin 0) - safeNumber (cashBalance model) (Fin 0) in
  let v := fst (calculateValuation pow_rest model (p :: ps)) in
  netDebt v = netDebt0 /\
  equityValue v = enterpriseValue v - netDebt0 /\
  equityValuePerShare v
    = guard (if shares >? Fin 0 then (enterpriseValue v - netDebt0) / shares
             else Fin 0) /\
  val_sharesOutstanding v = shares.
Proof.
  intros sum shares netDebt0 v.
  assert (Hnd : exists d, netDebt0 = Fin d).
  { subst netDebt0.
    destruct (finite_inv _ (isFinite_safeNumber (debtBalance model) 0)) as (d & ->).
    destruct (finite_inv _ (isFinite_safeNumber (cashBalance model) 0)) as (c & ->).
    rewrite sub_Fin. eauto. }
  destruct Hnd as (d & Hd).
  subst v. unfold calculateValuation.
  fold (waccOf model). fold netDebt0. fold shares.
  destruct (discountLoop pow_rest (waccOf model) (useMidYear_of model) 0 (p :: ps) (Fin 0))
    as [qs total] eqn:E.
  cbn [fst netDebt equityValue equityValuePerShare val_sharesOutstanding
       enterpriseValue].
  match goal with
  | |- context [guard (if isFinite ?x then ?x else Fin 0)] =>
    rewrite !(guard_guarded x);
    destruct (finite_inv (if isFinite x then x else Fin 0)) as (ev & Hev);
      [destruct x; reflexivity|]
  end.
  rewrite Hev, Hd. repeat split.
Qed.

(** With a finite last cash flow nothing is guarded away: the returned
    sum, terminal value and present value are the computed ones, and the
    enterprise value is their sum. *)
Lemma valuation_sum_and_terminal model p ps :
  isFinite (ufcf (last (p :: ps) p)) = true ->
  let v := fst (calculateValuation pow_rest model (p :: ps)) in
  exists s t x : Q,
    sumPvOfFcfOf pow_rest model (p :: ps) = Fin s /\
    sumPvFcf v = Fin s /\
    terminalValue v = Fin t /\
    (if waccOf model >? Fin 0
     then Fin t / Math_pow pow_rest (Fin 1 + waccOf model)
                    (of_nat (List.length (p :: ps)))
     else Fin 0) = Fin x /\
    pvOfTerminalValue v = Fin x /\
    enterpriseValue v = Fin (s + x).
Proof.
  intros Hu v.
  destruct (calculateValuation_fields pow_rest model p ps)
    as (_ & Ht & Hpv & Hs & Hev & _).
  destruct (valuation_parts_finite model p ps Hu) as (s & t & x & Es & Et & Ex).
  fold v in Ht, Hpv, Hs, Hev.
  exists s, t, x. rewrite Ht, Hpv, Hs, Hev, Ex, Es.
  rewrite Et in Ex |- *. rewrite tvDiscountPeriod_spec in Ex.
  repeat split. exact Ex.
Qed.

(** X4: when the cash flow of the last projected year is a number, the
    enterprise value returned is the returned sum of the discounted cash
    flows plus the returned present value of the terminal value, the
    equity value is the enterprise value less the net debt, and the net
    debt is debt less cash. *)
Theorem valuation_bridge model p ps :
  isFinite (ufcf (last (p :: ps) p)) = true ->
  let v := fst (calculateValuation pow_rest model (p :: ps)) in
  enterpriseValue v = sumPvFcf v + pvOfTerminalValue v /\
  equityValue v = enterpriseValue v - netDebt v /\
  netDebt v
  = safeNumber (debtBalance model) (Fin 0) - safeNumber (cashBalance model) (Fin 0).
Proof.
  intros Hu v.
  destruct (calculateValuation_equity_fields model p ps) as (Hn & He & _).
  fold v in Hn, He. rewrite Hn. split; [|split; [exact He | reflexivity]].
  destruct (calculateValuation_fields pow_rest model p ps)
    as (_ & _ & Hpv & Hs & Hev & _).
  destruct (valuation_parts_finite model p ps Hu) as (s & t & x & Es & Et & Ex).
  fold v in Hpv, Hs, Hev.
  rewrite Hpv, Hs, Hev, Ex, Es. reflexivity.
Qed.


(** X6: the exit multiple of the model reaches one field of the
    valuation, [terminalValueExitMultiple], and nothing else: neither the
    terminal value used, nor the enterprise value, nor the array left
    behind. *)
Theorem exit_multiple_is_informational model (x : num) ps :
  same_but_exit_value
    (fst (calculateValuation pow_rest (with_exitMultiple model x) ps))
    (fst (calculateValuation pow_rest model ps)) /\
  snd (calculateValuation pow_rest (with_exitMultiple model x) ps)
  = snd (calculateValuation pow_rest model ps).
Proof.
  destruct ps as [|p ps]; [repeat split|].
  unfold calculateValuation, useMidYear_of.
  cbn [with_exitMultiple wacc terminalGrowthRate exitMultiple debtBalance
       cashBalance sharesOutstanding useMidYearConvention].
  destruct (discountLoop pow_rest _ _ 0 (p :: ps) (Fin 0)) as [qs total].
  repeat split.
Qed.

End Bridge.

(** X4 at work on the scenario. *)
Lemma valuation_bridge_witness :
  isFinite (ufcf (last (scenario_first :: scenario_rest) scenario_first)) = true /\
  let v := fst (calculateValuation pow_unknown scenario_model
                  (scenario_first :: scenario_rest)) in
  enterpriseValue v = sumPvFcf v + pvOfTerminalValue v /\
  equityValue v = enterpriseValue v - netDebt v /\
  netDebt v
  = safeNumber (debtBalance scenario_model) (Fin 0)
    - safeNumber (cashBalance scenario_model) (Fin 0).
Proof.
  split; [reflexivity|].
  apply (valuation_bridge pow_unknown scenario_model scenario_first scenario_rest).
  reflexivity.
Defined.


(** ** calculateValuation: the discount rate and the array *)

Lemma last_default_irrelevant (A : Type) (a : A) (l : list A) (d d' : A) :
  last (a :: l) d = last (a :: l) d'.
Proof.
  revert a. induction l as [|b l IH]; intros a; [reflexivity|].
  change (last (b :: l) d = last (b :: l) d'). apply IH.
Qed.

Lemma fullYearFactor_bounds (w : Q) (k : nat) :
  (0 < w)%Q ->
  (0 < fullYearFactor w k)%Q /\ (fullYearFactor w k < 1)%Q /\
  (fullYearFactor w (S k) < fullYearFactor w k)%Q.
Proof.
  intros Hw. unfold fullYearFactor.
  assert (Hpow : forall n : nat, (1 < (1 + w) ^ (Z.of_nat n + 1))%Q).
  { induction n as [|n IH].
    - change ((1 + w) ^ (Z.of_nat 0 + 1))%Q with ((1 + w) ^ 1)%Q.
      rewrite Qpower_1_r. lra.
    - replace (Z.of_nat (S n) + 1)%Z with (Z.of_nat (S (S n))) by lia.
      rewrite Qpow_succ.
      replace (Z.of_nat (S n)) with (Z.of_nat n + 1)%Z by lia.
      set (x := ((1 + w) ^ (Z.of_nat n + 1))%Q) in *. nra. }
  assert (Hs : ((1 + w) ^ (Z.of_nat (S k) + 1)
                == (1 + w) * (1 + w) ^ (Z.of_nat k + 1))%Q).
  { replace (Z.of_nat (S k) + 1)%Z with (Z.of_nat (S (S k))) by lia.
    rewrite Qpow_succ.
    replace (Z.of_nat (S k)) with (Z.of_nat k + 1)%Z by lia. reflexivity. }
  pose proof (Hpow k) as Hk. pose proof (Hpow (S k)) as Hk'.
  set (x := ((1 + w) ^ (Z.of_nat k + 1))%Q) in *.
  set (y := ((1 + w) ^ (Z.of_nat (S k) + 1))%Q) in *.
  repeat split.
  - apply Qlt_shift_div_l; lra.
  - apply Qlt_shift_div_r; lra.
  - apply Qlt_shift_div_r; [lra|].
    setoid_replace (1 / x * y)%Q with (1 + w)%Q by (rewrite Hs; field; lra).
    lra.
Qed.

Section DiscountRate.

Variable pow_rest : num -> num -> num.

(** X7: a discount rate of one percent or less, negative rates
    included, is valued as one percent: the record returned and the
    array left behind are those of a rate of exactly one percent. *)
Theorem wacc_floored_at_one_percent model (w : Q) (g : num) ps :
  (w <= 1)%Q ->
  calculateValuation pow_rest (with_wacc_growth model (Fin w) g) ps
  = calculateValuation pow_rest (with_wacc_growth model (Fin 1) g) ps.
Proof.
  intros Hw. destruct ps as [|p ps]; [reflexivity|].
  unfold calculateValuation, useMidYear_of.
  cbn [with_wacc_growth wacc terminalGrowthRate exitMultiple debtBalance
       cashBalance sharesOutstanding useMidYearConvention].
  assert (E : Math_max (Fin 0.01) (safeNumber (Fin w) (Fin 10) / Fin 100)
              = Fin 0.01).
  { change (safeNumber (Fin w) (Fin 10)) with (Fin w).
    rewrite div_Fin by discriminate. rewrite max_Fin.
    replace (Fin 0.01 <? Fin (w / 100)) with false; [reflexivity|].
    symmetry. apply ltb_Fin_false. apply Qle_shift_div_r; lra. }
  rewrite E. reflexivity.
Qed.

(** What [discountStep] writes into an element does not depend on what
    an earlier call wrote there. *)
Lemma discountStep_idem wacc useMidYear idx p s0 s :
  discountStep pow_rest wacc useMidYear idx
    (fst (discountStep pow_rest wacc useMidYear idx p s0)) s
  = discountStep pow_rest wacc useMidYear idx p s.
Proof. destruct p. reflexivity. Qed.

Lemma discountLoop_idem wacc useMidYear ps :
  forall idx s0 s,
    discountLoop pow_rest wacc useMidYear idx
      (fst (discountLoop pow_rest wacc useMidYear idx ps s0)) s
    = discountLoop pow_rest wacc useMidYear idx ps s.
Proof.
  induction ps as [|p rest IH]; intros idx s0 s; [reflexivity|].
  rewrite (discountLoop_cons pow_rest wacc useMidYear idx p rest s0).
  cbn [fst]. rewrite !discountLoop_cons, discountStep_idem, IH.
  reflexivity.
Qed.

(** X8: a second call of [calculateValuation] on the array that a first
    call has written into returns the same record and leaves the array
    as it found it. *)
Theorem calculateValuation_idempotent model ps :
  calculateValuation pow_rest model (snd (calculateValuation pow_rest model ps))
  = calculateValuation pow_rest model ps.
Proof.
  destruct ps as [|p ps]; [reflexivity|].
  rewrite calculateValuation_snd.
  pose proof (discountLoop_idem (waccOf model) (useMidYear_of model) (p :: ps)
                0 (Fin 0) (Fin 0)) as H.
  rewrite (discountLoop_cons pow_rest _ _ 0 p ps (Fin 0)) in H |- * at 1.
  cbn [fst] in H |- *.
  unfold calculateValuation at 1. fold (waccOf model). rewrite H.
  unfold calculateValuation. fold (waccOf model).
  rewrite (discountLoop_cons pow_rest _ _ 0 p ps (Fin 0)).
  unfold lastOf.
  rewrite (last_default_irrelevant _ _
             (fst (discountStep pow_rest (waccOf model) (useMidYear_of model)
                     0 p (Fin 0))) p).
  reflexivity.
Qed.

(** The factors that the full-year convention stores. *)
Lemma discountLoop_full_year_factors (w : Q) ps :
  (0 < w)%Q ->
  forall idx s,
    map discountFactor (fst (discountLoop pow_rest (Fin w) false idx ps s))
    = map (fun k => Fin (fullYearFactor w k)) (seq idx (List.length ps)).
Proof.
  intros Hw. induction ps as [|p rest IH]; intros idx s; [reflexivity|].
  rewrite discountLoop_cons. cbn [fst map List.length seq]. rewrite IH.
  f_equal.
  destruct (discountStep_writes pow_rest (Fin w) false idx p s) as (_ & -> & _).
  rewrite add_Fin.
  replace (Fin (1 + w) >? Fin 0) with true by (symmetry; apply ltb_Fin; lra).
  unfold discountPeriod, of_nat. rewrite add_Fin.
  rewrite (Math_pow_int pow_rest (1 + w) (z := Z.of_nat idx + 1))
    by (rewrite inject_Z_plus; reflexivity).
  rewrite pow_int_pos by lia.
  rewrite div_Fin by (apply Qpower_not_0; lra).
  reflexivity.
Qed.

Lemma fullYearFactors_decrease (w : Q) (n : nat) :
  (0 < w)%Q ->
  forall idx,
    strictly_decreasing (map (fun k => Fin (fullYearFactor w k)) (seq idx n)).
Proof.
  intros Hw. induction n as [|n IH]; intros idx; [exact I|].
  specialize (IH (S idx)). destruct n as [|n]; [exact I|].
  cbn [seq map strictly_decreasing] in *. split; [|exact IH].
  apply lt_Fin. apply (fullYearFactor_bounds idx Hw).
Qed.

(** X9: under the full-year convention every discount factor that
    [calculateValuation] stores is above zero and below one, and each
    year's factor is below that of the year before. *)
Theorem full_year_discount_factors_decrease model ps :
  useMidYearConvention model = Some false ->
  let arr := snd (calculateValuation pow_rest model ps) in
  Forall (fun x => Fin 0 < x /\ x < Fin 1) (map discountFactor arr) /\
  strictly_decreasing (map discountFactor arr).
Proof.
  intros Hflag arr. subst arr.
  destruct ps as [|p ps]; [split; [constructor | exact I]|].
  rewrite calculateValuation_snd. unfold useMidYear_of. rewrite Hflag.
  destruct (waccOf_floor model) as (w & -> & Hw).
  assert (Hw0 : (0 < w)%Q) by lra.
  rewrite (discountLoop_full_year_factors (p :: ps) Hw0). split.
  - apply Forall_forall. intros x Hx. apply in_map_iff in Hx.
    destruct Hx as (k & <- & _).
    destruct (fullYearFactor_bounds k Hw0) as (H0 & H1 & _).
    split; apply lt_Fin; assumption.
  - apply fullYearFactors_decrease, Hw0.
Qed.

End DiscountRate.

(** X7 at work: the scenario at a discount rate of -5%. *)
Lemma wacc_floor_witness :
  (-5 <= 1)%Q /\
  calculateValuation pow_unknown
    (with_wacc_growth scenario_model (Fin (-5)) (Fin 2))
    (scenario_first :: scenario_rest)
  = calculateValuation pow_unknown
      (with_wacc_growth scenario_model (Fin 1) (Fin 2))
      (scenario_first :: scenario_rest).
Proof.
  split; [discriminate|].
  apply (wacc_floored_at_one_percent pow_unknown scenario_model (w := -5)).
  discriminate.
Defined.

(** X9 at work on the scenario, which runs the full-year convention. *)
Lemma full_year_discount_factors_witness :
  useMidYearConvention scenario_model = Some false /\
  let arr := snd (calculateValuation pow_unknown scenario_model
                    (scenario_first :: scenario_rest)) in
  Forall (fun x => Fin 0 < x /\ x < Fin 1) (map discountFactor arr) /\
  strictly_decreasing (map discountFactor arr).
Proof.
  split; [reflexivity|].
  apply (full_year_discount_factors_decrease pow_unknown scenario_model).
  reflexivity.
Defined.

(** ** calculateTradingComps: the averages *)




Lemma fold_add_finite (xs : list num) :
  Forall (fun v => isFinite v = true) xs ->
  forall s, isFinite s = true -> isFinite (fold_left num_add xs s) = true.
Proof.
  induction 1 as [|v xs Hv Hxs IH]; intros s Hs; [exact Hs|].
  cbn [fold_left]. apply IH. apply isFinite_add; assumption.
Qed.

(** What passes the filter [isFinite(v) && v > 0] has a finite mean. *)
Lemma average_filtered_finite (xs : list num) :
  isFinite (average (filter positiveFinite xs)) = true.
Proof.
  assert (H : Forall (fun v => isFinite v = true) (filter positiveFinite xs)).
  { apply Forall_forall. intros v Hv. apply filter_In in Hv.
    destruct Hv as (_ & Hv). unfold positiveFinite in Hv.
    apply Bool.andb_true_iff in Hv. apply Hv. }
  destruct (filter positiveFinite xs) as [|y ys]; [reflexivity|].
  unfold average, sumOf.
  destruct (finite_inv _ (fold_add_finite H (Fin 0) eq_refl)) as (s & ->).
  unfold of_nat. rewrite div_Fin; [reflexivity|].
  intros E. unfold Qeq in E. cbn [Qnum Qden inject_Z List.length] in E. lia.
Qed.


(** X11: when no peer has a positive P/E ratio, the implied equity value
    is not taken from earnings: it is the implied enterprise value less
    the gross debt of the model. *)
Theorem implied_equity_falls_back_on_debt model p ps :
  tradingComps model <> [] ->
  pes (tradingComps model) = [] ->
  isFinite (ebitda (last (p :: ps) p)) = true ->
  isFinite (netIncome (last (p :: ps) p)) = true ->
  let out := calculateTradingComps model (p :: ps) in
  impliedEquityValue out
  = impliedEv out - safeNumber (debtBalance model) (Fin 0).
Proof.
  intros Hne Hpe He Hn out. subst out. unfold calculateTradingComps.
  destruct (tradingComps model) as [|c cs] eqn:Hc; [contradiction Hne; reflexivity|].
  cbn [impliedEquityValue impliedEv]. rewrite Hpe. unfold lastOf.
  destruct (finite_inv _ He) as (e & ->).
  destruct (finite_inv _ Hn) as (n & ->).
  destruct (finite_inv _ (average_filtered_finite (map evEbitdaOf (c :: cs))))
    as (a & Ea).
  unfold evEbitdas. rewrite Ea.
  destruct (finite_inv _ (isFinite_safeNumber (debtBalance model) 0)) as (d & ->).
  destruct (or_else_Fin e 0) as (e' & ->).
  cbn [average]. rewrite !mul_Fin.
  replace (or_else (Fin (n * 0)) (Fin (e' * a) - Fin d)) with (Fin (e' * a) - Fin d).
  - reflexivity.
  - unfold or_else, truthy.
    replace (Qeq_bool (n * 0) 0) with true; [reflexivity|].
    symmetry. apply Qeq_bool_iff. ring.
Qed.


(** X11 at work: with the loss-making peer alone, the implied equity
    value is the implied enterprise value less the debt of 200,000. *)
Lemma implied_equity_witness :
  (tradingComps loss_peer_model <> [] /\
   pes (tradingComps loss_peer_model) = [] /\
   isFinite (ebitda (last (scenario_first :: scenario_rest) scenario_first)) = true /\
   isFinite (netIncome (last (scenario_first :: scenario_rest) scenario_first)) = true) /\
  let out := calculateTradingComps loss_peer_model
               (scenario_first :: scenario_rest) in
  impliedEquityValue out = impliedEv out - Fin 200000.
Proof.
  split; [repeat split; discriminate || reflexivity|].
  exact (implied_equity_falls_back_on_debt loss_peer_model scenario_first
           scenario_rest ltac:(discriminate) eq_refl eq_refl eq_refl).
Defined.

(** ** calculateTradingComps after calculateValuation *)

(** X12: the model route values the projections before it analyses the
    comparables on the same array; what [calculateValuation] writes into
    the array does not reach [calculateTradingComps], whose result is
    the one on the array as projected. *)
Theorem comps_analysis_ignores_valuation_writes pow_rest model ps :
  calculateTradingComps model (snd (calculateValuation pow_rest model ps))
  = calculateTradingComps model ps.
Proof.
  destruct ps as [|p ps]; [reflexivity|].
  rewrite calculateValuation_snd.
  pose proof (last_after_discount pow_rest model p ps) as Hframe.
  rewrite (discountLoop_cons pow_rest _ _ 0 p ps (Fin 0)) in Hframe |- *.
  cbn [fst] in Hframe |- *. unfold calculateTradingComps, lastOf in *.
  destruct (tradingComps model) as [|c cs]; [reflexivity|].
  rewrite (last_default_irrelevant _ _ _ p).
  destruct Hframe as (_ & _ & _ & _ & _ & Hebitda & _ & _ & _ & _ & _ & Hni & _).
  rewrite <- Hebitda, <- Hni. reflexivity.
Qed.

(** ** calculateBreakdowns after calculateValuation *)

Lemma Forall2_transfer (A : Type) (R : A -> A -> Prop) (P : A -> Prop)
    (ps qs : list A) :
  (forall p q, R p q -> P p -> P q) ->
  Forall2 R ps qs -> Forall P ps -> Forall P qs.
Proof.
  intros HR H. induction H as [|p q ps qs Hpq Hrest IH]; intros HP.
  - constructor.
  - inversion HP; subst. constructor; [eapply HR; eassumption | apply IH; assumption].
Qed.

Lemma same_frame_identities (p q : YearProjection) :
  same_frame p q -> income_identities p -> income_identities q.
Proof.
  unfold same_frame, income_identities.
  intros (_ & Hrev & Hcogs & Hgp & Hopex & Hebitda & Hda & Hebit & Hint & Hebt &
          Htax & Hni & _ & _ & _ & _ & _ & _ & _ & Hnwc & Hcapex & _ & _ &
          Hnopat & Hufcf).
  rewrite <- Hrev, <- Hcogs, <- Hgp, <- Hopex, <- Hebitda, <- Hda, <- Hebit,
    <- Hint, <- Hebt, <- Htax, <- Hni, <- Hnwc, <- Hcapex, <- Hnopat, <- Hufcf.
  exact (fun H => H).
Qed.

Lemma projectionLoop_identities g cm om dm ir db tr ar inv ap cp mcp n :
  forall yr rev prev,
    Forall income_identities
      (projectionLoop g cm om dm ir db tr ar inv ap cp mcp n yr rev prev).
Proof.
  induction n as [|n IH]; intros yr rev prev.
  - constructor.
  - rewrite projectionLoop_S. constructor; [|apply IH].
    unfold income_identities. repeat split.
Qed.

Lemma yearBreakdown_chains model p :
  income_identities p -> year_chains_hold (yearBreakdown model p).
Proof.
  intros (Hgp & Hebitda & Hebit & Hebt & Hni & Hufcf).
  unfold year_chains_hold, subtraction_chain, stepValues.
  cbn [yearBreakdown yb_grossProfit yb_ebitda yb_ebit yb_netIncome yb_ufcf
       steps finalValue map value step].
  repeat split.
  - exists (revenue p), (cogs p). rewrite Hgp. split; reflexivity.
  - exists (grossProfit p), (opex p). rewrite Hebitda. split; reflexivity.
  - exists (ebitda p), (da p). rewrite Hebit. split; reflexivity.
  - exists (ebit p), (interest p), (tax p). rewrite Hni, Hebt.
    split; reflexivity.
  - do 6 eexists. rewrite Hufcf. split; reflexivity.
Qed.

Section BreakdownRoute.

Variable pow_rest : num -> num -> num.

Lemma breakdownsOf_unfold model :
  breakdownsOf pow_rest model
  = calculateBreakdowns pow_rest model
      (snd (calculateValuation pow_rest model (calculateProjections model)))
      (fst (calculateValuation pow_rest model (calculateProjections model))).
Proof.
  unfold breakdownsOf.
  destruct (calculateValuation pow_rest model (calculateProjections model)).
  reflexivity.
Qed.

(** X13: in the breakdowns that the breakdown route returns, the
    income-statement chains of every year add up, for every model:
    revenue less COGS is the gross profit shown, gross profit less OpEx
    the EBITDA, EBITDA less D&A the EBIT, EBIT less interest the EBT and
    EBT less taxes the net income; and NOPAT plus D&A less the change in
    working capital less CapEx is the cash flow shown. *)
Theorem yearly_breakdown_chains_add_up model :
  List.length (yearlyBreakdowns (breakdownsOf pow_rest model)) = 5%nat /\
  Forall year_chains_hold (yearlyBreakdowns (breakdownsOf pow_rest model)).
Proof.
  rewrite breakdownsOf_unfold.
  assert (Hne : exists p ps, calculateProjections model = p :: ps)
    by (do 2 eexists; reflexivity).
  destruct Hne as (p & ps & Hps).
  assert (Hlen : List.length (calculateProjections model) = 5%nat) by reflexivity.
  assert (Hid : Forall income_identities (calculateProjections model))
    by apply projectionLoop_identities.
  rewrite Hps in *. rewrite calculateValuation_snd.
  cbn [calculateBreakdowns yearlyBreakdowns]. split.
  - rewrite length_map, discountLoop_length. exact Hlen.
  - apply Forall_map.
    eapply Forall_impl; [intros q; apply yearBreakdown_chains|].
    eapply Forall2_transfer;
      [exact same_frame_identities | apply discountLoop_frame | exact Hid].
Qed.

(** The sum that [calculateValuation] accumulates is the sum that
    [calculateBreakdowns] takes over the array afterwards. *)
Lemma discountLoop_sum_fold wacc useMidYear ps :
  forall idx s,
    snd (discountLoop pow_rest wacc useMidYear idx ps s)
    = fold_left
        (fun sum p => sum + (if isFinite (pvOfFcf p) then pvOfFcf p else Fin 0))
        (fst (discountLoop pow_rest wacc useMidYear idx ps s)) s.
Proof.
  induction ps as [|p rest IH]; intros idx s; [reflexivity|].
  rewrite discountLoop_cons. cbn [fst snd fold_left]. rewrite IH. reflexivity.
Qed.

Lemma discountLoop_pv_finite wacc useMidYear ps :
  Forall (fun p => isFinite (ufcf p) = true) ps ->
  forall idx s,
    Forall (fun q => isFinite (pvOfFcf q) = true)
           (fst (discountLoop pow_rest wacc useMidYear idx ps s)).
Proof.
  induction 1 as [|p rest Hp Hrest IH]; intros idx s; [constructor|].
  rewrite discountLoop_cons. cbn [fst]. constructor; [|apply IH].
  destruct (discountStep_writes pow_rest wacc useMidYear idx p s)
    as (Hf & Hd & Hpv).
  rewrite Hpv, Hf, Hd. apply isFinite_mul; [exact Hp | apply guard_finite].
Qed.

Lemma fold_guarded_sum (qs : list YearProjection) :
  Forall (fun q => isFinite (pvOfFcf q) = true) qs ->
  forall s,
    fold_left
      (fun sum p => sum + (if isFinite (pvOfFcf p) then pvOfFcf p else Fin 0))
      qs s
    = fold_left num_add (map pvOfFcf qs) s.
Proof.
  induction 1 as [|q qs Hq Hqs IH]; intros s; [reflexivity|].
  cbn [fold_left map]. rewrite Hq. apply IH.
Qed.

(** X14: in the breakdowns of the breakdown route, for every model, the
    final value of "Present Value of FCF" is the [sumPvFcf] of the
    valuation and the sum of its five steps; and the steps of
    "Enterprise Value" are the same sum, the present value of the
    terminal value that the valuation returns, and their total, which is
    the enterprise value. *)
Theorem valuation_breakdowns_add_up model :
  let v := fst (calculateValuation pow_rest model (calculateProjections model)) in
  let b := valuationBreakdown (breakdownsOf pow_rest model) in
  finalValue (vb_pvOfFcf b) = sumPvFcf v /\
  sumOf (stepValues (vb_pvOfFcf b)) = finalValue (vb_pvOfFcf b) /\
  List.length (steps (vb_pvOfFcf b)) = 5%nat /\
  stepValues (vb_enterpriseValue b)
  = [sumPvFcf v; pvOfTerminalValue v; sumPvFcf v + pvOfTerminalValue v] /\
  finalValue (vb_enterpriseValue b) = sumPvFcf v + pvOfTerminalValue v /\
  enterpriseValue v = sumPvFcf v + pvOfTerminalValue v.
Proof.
  intros v b. subst b. rewrite breakdownsOf_unfold. fold v.
  assert (Hne : exists p ps, calculateProjections model = p :: ps)
    by (do 2 eexists; reflexivity).
  destruct Hne as (p & ps & Hps).
  assert (Hlen : List.length (calculateProjections model) = 5%nat) by reflexivity.
  pose proof (projections_ufcf_finite model) as Hu.
  subst v. rewrite Hps in *.
  assert (Hlast : isFinite (ufcf (last (p :: ps) p)) = true).
  { destruct (exists_last (l := p :: ps)) as (l' & a & E); [discriminate|].
    rewrite E in Hu |- *. rewrite last_last.
    apply Forall_app in Hu. destruct Hu as (_ & Ha). inversion Ha; assumption. }
  destruct (valuation_sum_and_terminal pow_rest model p ps Hlast)
    as (s & t & x & Es & Hs & Ht & Ex & Hx & Hev).
  rewrite calculateValuation_snd.
  set (v := fst (calculateValuation pow_rest model (p :: ps))) in *.
  set (arr := fst (discountLoop pow_rest (waccOf model) (useMidYear_of model) 0
                     (p :: ps) (Fin 0))).
  assert (Hfold :
            fold_left
              (fun sum q => sum + (if isFinite (pvOfFcf q) then pvOfFcf q else Fin 0))
              arr (Fin 0) = Fin s).
  { subst arr. rewrite <- discountLoop_sum_fold. exact Es. }
  assert (Hpv : Forall (fun q => isFinite (pvOfFcf q) = true) arr)
    by (apply discountLoop_pv_finite, Hu).
  assert (Harr : List.length arr = List.length (p :: ps))
    by apply discountLoop_length.
  unfold calculateBreakdowns, stepValues.
  cbn [valuationBreakdown vb_pvOfFcf vb_enterpriseValue finalValue steps map
       value step].
  fold (waccOf model). rewrite Hfold, Harr, Ht, Ex, Hs, Hx, Hev, map_map.
  cbn [value]. unfold sumOf.
  rewrite <- (fold_guarded_sum Hpv), Hfold, length_map, Harr.
  repeat split. exact Hlen.
Qed.

End BreakdownRoute.

(** ** calculateBreakdowns: the terminal value *)

Lemma Forall2_last (A : Type) (R : A -> A -> Prop) (ps qs : list A) :
  Forall2 R ps qs -> forall d e, R d e -> R (last ps d) (last qs e).
Proof.
  induction 1 as [|p q ps qs Hpq Hrest IH]; intros d e Hde; [exact Hde|].
  destruct Hrest as [|p2 q2 ps qs H2 Hrest]; [exact Hpq|].
  change (R (last (p2 :: ps) d) (last (q2 :: qs) e)). apply IH, Hde.
Qed.

Lemma last_finite_ufcf (p : YearProjection) (ps : list YearProjection) :
  Forall (fun q => isFinite (ufcf q) = true) (p :: ps) ->
  isFinite (ufcf (last (p :: ps) p)) = true.
Proof.
  intros H. destruct (exists_last (l := p :: ps)) as (l' & a & E); [discriminate|].
  rewrite E in H |- *. rewrite last_last.
  apply Forall_app in H. destruct H as (_ & Ha). inversion Ha; assumption.
Qed.

Section TerminalBreakdown.

Variable pow_rest : num -> num -> num.

(** X15: when the discount rate exceeds the terminal growth by more
    than 0.001, the "Terminal Value" breakdown of the breakdown route
    shows the last cash flow [f], the growth [g] and the discount rate
    [w] in percent, and a terminal value that is
    [f * (1 + g / 100) / (w / 100 - g / 100)]. *)
Theorem terminal_breakdown_reproduces_gordon model :
  Fin 0.001 < waccOf model - terminalGrowthOf model ->
  let b := vb_terminalValue (valuationBreakdown (breakdownsOf pow_rest model)) in
  exists f g w tv : Q,
    stepValues b = [Fin f; Fin g; Fin w; Fin tv] /\ finalValue b = Fin tv /\
    (tv == f * (1 + g / 100) / (w / 100 - g / 100))%Q.
Proof.
  intros Hspread b. subst b. rewrite breakdownsOf_unfold.
  assert (Hne : exists p ps, calculateProjections model = p :: ps)
    by (do 2 eexists; reflexivity).
  destruct Hne as (p & ps & Hps).
  pose proof (projections_ufcf_finite model) as Hu. rewrite Hps in *.
  pose proof (last_finite_ufcf Hu) as Hlast.
  destruct (finite_inv _ Hlast) as (u & Eu).
  destruct (calculateValuation_fields pow_rest model p ps) as (_ & Ht & _).
  rewrite Eu in Ht.
  rewrite calculateValuation_snd.
  pose proof (discountLoop_assigns pow_rest (waccOf model) (useMidYear_of model)
                (p :: ps) 0 (Fin 0)) as Hassign.
  rewrite (discountLoop_cons pow_rest _ _ 0 p ps (Fin 0)) in Hassign |- *.
  cbn [fst] in Hassign |- *.
  assert (Hf : fcf (last (fst (discountStep pow_rest (waccOf model)
                                 (useMidYear_of model) 0 p (Fin 0))
                          :: fst (discountLoop pow_rest (waccOf model)
                                    (useMidYear_of model) 1 ps
                                    (snd (discountStep pow_rest (waccOf model)
                                            (useMidYear_of model) 0 p (Fin 0)))))
                         (fst (discountStep pow_rest (waccOf model)
                                 (useMidYear_of model) 0 p (Fin 0))))
               = Fin u).
  { rewrite <- Eu.
    refine (proj1 (proj2 (Forall2_last Hassign p _ _))).
    inversion Hassign; assumption. }
  unfold calculateBreakdowns, stepValues, lastOf.
  cbn [valuationBreakdown vb_terminalValue finalValue steps map value step].
  rewrite Hf, Ht.
  fold (waccOf model). fold (terminalGrowthOf model).
  destruct (waccOf_floor model) as (w & Hw & Hw0).
  destruct (terminalGrowthOf_finite model) as (g & Hg).
  rewrite Hw, Hg in *. rewrite sub_Fin in *. apply lt_Fin in Hspread.
  replace (Fin (w - g) >? Fin 0.001) with true by (symmetry; apply ltb_Fin, Hspread).
  rewrite add_Fin, !mul_Fin. rewrite div_Fin by lra.
  cbn [guard isFinite].
  exists u, (g * 100)%Q, (w * 100)%Q, (u * (1 + g) / (w - g))%Q.
  split; [reflexivity|]. split; [reflexivity|].
  field. lra.
Qed.

End TerminalBreakdown.

(** X15 at work on the scenario: 10% against 2%. *)
Lemma terminal_breakdown_witness :
  Fin 0.001 < waccOf scenario_model - terminalGrowthOf scenario_model /\
  let b := vb_terminalValue
             (valuationBreakdown (breakdownsOf pow_unknown scenario_model)) in
  exists f g w tv : Q,
    stepValues b = [Fin f; Fin g; Fin w; Fin tv] /\ finalValue b = Fin tv /\
    (tv == f * (1 + g / 100) / (w / 100 - g / 100))%Q.
Proof.
  split; [reflexivity|].
  apply (terminal_breakdown_reproduces_gordon pow_unknown scenario_model).
  reflexivity.
Defined.

(** ** calculateSensitivity: the entry/exit grid *)

Section EntryExit.

Variable pow_rest : num -> num -> num.

(** One cell of the entry/exit grid at a positive EBITDA. *)
Lemma moic_cell (e g entry exit : Q) :
  (0 < e)%Q -> (0 < entry)%Q ->
  Math_round
    ((if Fin e * Fin entry >? Fin 0
      then Fin e * Fin exit * Math_pow pow_rest (Fin 1 + Fin g / Fin 100) (Fin 5)
           / (Fin e * Fin entry)
      else Fin 0) * Fin 100) / Fin 100
  = Fin (round2 (moicOf g entry exit)).
Proof.
  intros He Hentry.
  assert (Hpos : (0 < e * entry)%Q) by (apply Qmult_lt_0_compat; assumption).
  rewrite div_Fin by discriminate. rewrite !mul_Fin, add_Fin.
  replace (Fin (e * entry) >? Fin 0) with true by (symmetry; apply ltb_Fin, Hpos).
  rewrite (Math_pow_int pow_rest (1 + g / 100) (y := 5) (z := 5)) by reflexivity.
  rewrite pow_int_pos by lia.
  rewrite mul_Fin. rewrite div_Fin by lra.
  rewrite mul_Fin, round_Fin. rewrite div_Fin by discriminate.
  unfold round2, moicOf. do 3 f_equal. apply Qfloor_comp.
  field. split; lra.
Qed.

(** X16: when the EBITDA of the last projected year is positive, the
    entry/exit grid does not depend on it: the cell of the entry multiple
    [entry] and the exit multiple [exit] is [exit / entry] grown for five
    years at the model's growth rate, rounded to two decimals. *)
Theorem moic_grid_is_multiple_ratio_grown model p ps (e g : Q) :
  ebitda (last (p :: ps) p) = Fin e -> (0 < e)%Q ->
  safeNumber (growthRate model) (Fin 15) = Fin g ->
  data (entryVsExit (calculateSensitivity pow_rest model (p :: ps)))
  = map (fun entry =>
           map (fun exit => Fin (round2 (moicOf g entry exit)))
               [10; 11; 12; 13; 14]%Q)
        [6; 7; 8; 9; 10]%Q.
Proof.
  intros He Hpos Hg.
  unfold calculateSensitivity. cbn [entryVsExit data]. unfold grid, lastOf.
  rewrite He, Hg. cbn [map].
  repeat (f_equal; try (apply moic_cell; [exact Hpos | reflexivity])).
Qed.

(** X17: a model without a growth rate is projected at no growth, and
    its entry/exit grid is computed at 15% growth. *)
Theorem absent_growth_rate_has_two_defaults model ps :
  isFinite (growthRate model) = false ->
  calculateProjections model
  = calculateProjections (with_growthRate model (Fin 0)) /\
  entryVsExit (calculateSensitivity pow_rest model ps)
  = entryVsExit (calculateSensitivity pow_rest (with_growthRate model (Fin 15)) ps).
Proof.
  intros Hg.
  assert (E : forall d, safeNumber (growthRate model) d = d).
  { intros d. destruct (growthRate model); [discriminate Hg | reflexivity ..]. }
  split.
  - unfold calculateProjections, with_growthRate.
    cbn [with_growth_opex startingRevenue growthRate cogsMargin opexMargin
         daMargin interestRate debtBalance taxRate arDays inventoryDays apDays
         capexPercent maintenanceCapexPercent].
    rewrite E. reflexivity.
  - unfold calculateSensitivity, with_growthRate.
    cbn [entryVsExit with_growth_opex growthRate].
    rewrite E. reflexivity.
Qed.

End EntryExit.

(** X16 at work on the scenario: a last-year EBITDA of 524,702 and 15%
    growth. *)
Lemma moic_grid_witness :
  (ebitda (last (scenario_first :: scenario_rest) scenario_first) = Fin 524702 /\
   (0 < 524702)%Q /\
   safeNumber (growthRate scenario_model) (Fin 15) = Fin 15) /\
  data (entryVsExit (calculateSensitivity pow_unknown scenario_model
                       (scenario_first :: scenario_rest)))
  = map (fun entry =>
           map (fun exit => Fin (round2 (moicOf 15 entry exit)))
               [10; 11; 12; 13; 14]%Q)
        [6; 7; 8; 9; 10]%Q.
Proof.
  split; [repeat split; reflexivity|].
  apply (moic_grid_is_multiple_ratio_grown pow_unknown scenario_model
           scenario_first scenario_rest (e := 524702) (g := 15));
    reflexivity.
Defined.

(** X17 at work on the model with every assumption absent. *)
Lemma absent_growth_rate_witness :
  isFinite (growthRate empty_model) = false /\
  calculateProjections empty_model
  = calculateProjections (with_growthRate empty_model (Fin 0)) /\
  entryVsExit (calculateSensitivity pow_unknown empty_model
                 (calculateProjections empty_model))
  = entryVsExit (calculateSensitivity pow_unknown
                   (with_growthRate empty_model (Fin 15))
                   (calculateProjections empty_model)).
Proof.
  split; [reflexivity|].
  apply (absent_growth_rate_has_two_defaults pow_unknown empty_model).
  reflexivity.
Defined.

(** ** calculateIRR: the range of the answer *)


Section IrrRange.

Variable pow_rest : num -> num -> num.



End IrrRange.


(** ** The LBO model: capital structure and debt schedule *)

Lemma min_cases (a b : Q) :
  exists m, Math_min (Fin a) (Fin b) = Fin m /\
            ((m == a)%Q /\ (a <= b)%Q \/ (m == b)%Q /\ (b <= a)%Q).
Proof.
  rewrite min_Fin. destruct (num_ltb (Fin b) (Fin a)) eqn:E.
  - exists b. apply ltb_Fin in E. split; [reflexivity|]. right. split; lra.
  - exists a. apply ltb_Fin_false in E. split; [reflexivity|]. left. split; lra.
Qed.

Lemma max_cases (a b : Q) :
  exists m, Math_max (Fin a) (Fin b) = Fin m /\
            ((m == a)%Q /\ (b <= a)%Q \/ (m == b)%Q /\ (a <= b)%Q).
Proof.
  rewrite max_Fin. destruct (num_ltb (Fin a) (Fin b)) eqn:E.
  - exists b. apply ltb_Fin in E. split; [reflexivity|]. right. split; lra.
  - exists a. apply ltb_Fin_false in E. split; [reflexivity|]. left. split; lra.
Qed.

(** Name the results of [Math.max], [Math.min] and [||] over finite
    numbers, each with the case it comes from. *)
Ltac fin_cases :=
  fin_arith;
  repeat (match goal with
          | |- context [Math_max (Fin ?a) (Fin ?b)] =>
            let m := fresh "m" in
            destruct (max_cases a b) as (m & -> & [(? & ?)|(? & ?)])
          | |- context [Math_min (Fin ?a) (Fin ?b)] =>
            let m := fresh "m" in
            destruct (min_cases a b) as (m & -> & [(? & ?)|(? & ?)])
          | |- context [or_else (Fin ?a) (Fin ?b)] =>
            let m := fresh "m" in
            destruct (or_else_Fin a b) as (m & ->)
          end; fin_arith).

Lemma scheduleYear_paid_down (sd pct sr mr sb mb : Q) (yr : nat)
    (proj : YearProjection) :
  finite_inputs proj ->
  (0 <= sd)%Q -> (0 <= pct)%Q -> (0 <= sb)%Q ->
  let d := scheduleYear (Fin sd) (Fin pct) (Fin sr) (Fin mr) yr proj (Fin sb) (Fin mb) in
  senior_paid_down d /\
  (exists e, endSenior d = Fin e /\ (0 <= e)%Q) /\ endMez d = Fin mb.
Proof.
  intros (He & Hc & Hw) Hsd Hpct Hsb d.
  destruct (finite_inv _ He) as (e & Ee).
  destruct (finite_inv _ Hc) as (c & Ec).
  destruct (finite_inv _ Hw) as (w & Ew).
  assert (Hmand : (0 <= sd * (pct / 100))%Q).
  { apply Qmult_le_0_compat; [exact Hsd|]. apply Qle_shift_div_l; lra. }
  subst d. unfold senior_paid_down, scheduleYear.
  cbn [cashSweep beginSenior seniorAmort endSenior endMez].
  rewrite Ee, Ec, Ew.
  fin_cases;
    (split; [|split; [eexists; split; [reflexivity|lra] | reflexivity]]);
    conjuncts;
    first [apply le_Fin; lra | apply eqb_Fin; lra].
Qed.

(** X19: in a debt schedule built from numbers, with a senior debt, a
    paydown percentage and an opening balance that are not negative, the
    amortization and the cash sweep of every year are not negative, the
    senior balance at the end of a year is the balance at its beginning
    less the two, and so it never goes up. *)
Theorem senior_debt_only_goes_down
    (seniorDebt annualDebtPaydownPct seniorInterestRate mezInterestRate : num)
    (ps : list YearProjection) :
  isFinite seniorInterestRate = true -> isFinite mezInterestRate = true ->
  Fin 0 <= seniorDebt -> isFinite seniorDebt = true ->
  Fin 0 <= annualDebtPaydownPct -> isFinite annualDebtPaydownPct = true ->
  Forall finite_inputs ps ->
  forall (yr : nat) (seniorBalance mezBalance : num),
    Fin 0 <= seniorBalance -> isFinite seniorBalance = true ->
    isFinite mezBalance = true ->
    Forall senior_paid_down
      (debtScheduleLoop seniorDebt annualDebtPaydownPct seniorInterestRate
         mezInterestRate yr ps seniorBalance mezBalance).
Proof.
  intros Hsr Hmr Hsd0 Hsd Hpct0 Hpct Hps.
  destruct (finite_inv _ Hsd) as (sd & ->).
  destruct (finite_inv _ Hpct) as (pct & ->).
  destruct (finite_inv _ Hsr) as (sr & ->).
  destruct (finite_inv _ Hmr) as (mr & ->).
  apply le_Fin in Hsd0, Hpct0.
  induction Hps as [|proj rest Hproj Hrest IH]; intros yr sb mb Hsb0 Hsb Hmb.
  - constructor.
  - destruct (finite_inv _ Hsb) as (b & ->).
    destruct (finite_inv _ Hmb) as (m & ->).
    apply le_Fin in Hsb0.
    destruct (scheduleYear_paid_down sr mr m yr Hproj Hsd0 Hpct0 Hsb0)
      as (Hd & (e & He & He0) & Hmez).
    cbn [debtScheduleLoop]. constructor; [exact Hd|].
    rewrite He, Hmez. apply IH; [apply le_Fin, He0 | reflexivity ..].
Qed.

(** The debt schedule of a loop: its years, its balances, its mezzanine. *)
Lemma debtScheduleLoop_shape sd pct sr mr ps :
  forall yr sb mb,
    map ds_year (debtScheduleLoop sd pct sr mr yr ps sb mb)
    = seq (yr + 1) (List.length ps) /\
    balances_chain sb mb (debtScheduleLoop sd pct sr mr yr ps sb mb) /\
    Forall (mezzanine_untouched mb) (debtScheduleLoop sd pct sr mr yr ps sb mb).
Proof.
  induction ps as [|proj rest IH]; intros yr sb mb.
  - repeat split. constructor.
  - cbn [debtScheduleLoop]. 
    set (d := scheduleYear sd pct sr mr yr proj sb mb).
    change (endMez d) with mb.
    destruct (IH (S yr) (endSenior d) mb) as (Hy & Hc & Hm).
    cbn [map seq List.length balances_chain]. repeat split.
    + f_equal. replace (S (yr + 1)) with (S yr + 1)%nat by lia. exact Hy.
    + exact Hc.
    + constructor; [repeat split | exact Hm].
Qed.

(** X20: the debt schedule of the LBO sheet covers the years 1 to the
    holding period, or to the last projected year if that comes first;
    each year begins on the balances the year before ended on, the first
    on the senior and the mezzanine debt at entry; and the mezzanine
    debt is never amortized, every year beginning and ending on the
    amount at entry. *)
Theorem debt_schedule_shape pow_rest a ps :
  let sc := lboScenario pow_rest a ps in
  map ds_year (debtSchedule sc)
  = seq 1 (Nat.min (holdingPeriodOf a) (List.length ps)) /\
  balances_chain (seniorDebt sc) (mezDebt sc) (debtSchedule sc) /\
  Forall (mezzanine_untouched (mezDebt sc)) (debtSchedule sc).
Proof.
  intros sc. subst sc. rewrite lboScenario_debtSchedule.
  match goal with
  | |- context [debtScheduleLoop ?sd ?pct ?sr ?mr 0 ?ys ?sb ?mb] =>
    destruct (debtScheduleLoop_shape sd pct sr mr ys 0 sb mb) as (Hy & Hc & Hm)
  end.
  rewrite length_firstn in Hy. repeat split; assumption.
Qed.


(** The scenario loop ends on the senior balance the schedule ends on. *)
Lemma scenarioLoop_final sd pct sr mr ps :
  forall yr sb mb,
    snd (scenarioLoop sd pct sr mr yr ps sb mb)
    = match rev (debtScheduleLoop sd pct sr mr yr ps sb mb) with
      | [] => sb
      | d :: _ => endSenior d
      end.
Proof.
  induction ps as [|proj rest IH]; intros yr sb mb; [reflexivity|].
  cbn [scenarioLoop debtScheduleLoop rev].
  set (d := scheduleYear sd pct sr mr yr proj sb mb).
  change (endMez d) with mb.
  specialize (IH (S yr) (endSenior d) mb).
  destruct (scenarioLoop sd pct sr mr (S yr) rest (endSenior d) mb) as [fcfs final].
  cbn [snd] in *. rewrite IH.
  destruct (rev (debtScheduleLoop sd pct sr mr (S yr) rest (endSenior d) mb));
    reflexivity.
Qed.

Lemma schedule_last_mezzanine sd pct sr mr ps :
  forall yr sb mb,
    match rev (debtScheduleLoop sd pct sr mr yr ps sb mb) with
    | [] => ps = []
    | d :: _ => endMez d = mb
    end.
Proof.
  intros yr sb mb.
  destruct (debtScheduleLoop_shape sd pct sr mr ps yr sb mb) as (_ & _ & Hm).
  destruct (rev (debtScheduleLoop sd pct sr mr yr ps sb mb)) as [|d l] eqn:E.
  - destruct ps; [reflexivity|].
    cbn [debtScheduleLoop rev] in E. destruct (rev _) in E; discriminate E.
  - assert (Hin : In d (debtScheduleLoop sd pct sr mr yr ps sb mb)).
    { apply in_rev. rewrite E. left. reflexivity. }
    rewrite Forall_forall in Hm. apply (Hm d Hin).
Qed.

(** X22: when there is a projection, the middle cell of the IRR grid of
    the LBO sheet, at the entry and the exit multiple of the
    assumptions, is the IRR of the base case. *)
Theorem irr_grid_centre_is_base_irr pow_rest a p ps :
  let sc := lboScenario pow_rest a (p :: ps) in
  nth 2 (nth 2 (sensitivityIrrs sc) []) NaN = irr sc.
Proof.
  intros sc. subst sc. unfold lboScenario. cbn [sensitivityIrrs irr].
  cbn [map nth].
  match goal with
  | |- context [scenarioLoop ?sd ?pct ?sr ?mr 0 ?ys ?sb ?mb] =>
    pose proof (scenarioLoop_schedule sd pct sr mr ys 0 sb mb) as Hf;
    pose proof (scenarioLoop_final sd pct sr mr ys 0 sb mb) as Hs;
    pose proof (schedule_last_mezzanine sd pct sr mr ys 0 sb mb) as Hm;
    destruct (scenarioLoop sd pct sr mr 0 ys sb mb) as [fcfs bal]
  end.
  cbn [fst snd map nth] in *. subst fcfs bal.
  match type of Hm with
  | match ?r with _ => _ end => destruct r as [|d l]
  end.
  - exfalso. unfold holdingPeriodOf in Hm.
    destruct (lbo_holdingPeriod a) as [[|n]|]; discriminate Hm.
  - rewrite Hm. reflexivity.
Qed.

(** X19 at work: the schedule of the scenario under the default LBO
    assumptions. *)
Lemma senior_debt_witness :
  Forall senior_paid_down
    (debtScheduleLoop (Fin 1200000) (Fin 6) (Fin 6) (Fin 12) 0
       (scenario_first :: scenario_rest) (Fin 1200000) (Fin 240000)).
Proof.
  apply senior_debt_only_goes_down; try reflexivity.
  repeat constructor.
Defined.


(** ** The export route: the medians *)

Lemma leb_Qle_bool (a b : Q) : (Fin a <=? Fin b) = Qle_bool a b.
Proof.
  destruct (Qle_bool a b) eqn:E.
  - apply leb_Fin, Qle_bool_iff, E.
  - apply Bool.not_true_iff_false. intros H. apply leb_Fin, Qle_bool_iff in H.
    congruence.
Qed.

Lemma insertAscending_Fin (a : Q) (qs : list Q) :
  insertAscending (Fin a) (map Fin qs) = map Fin (qinsert a qs).
Proof.
  induction qs as [|q qs IH]; [reflexivity|].
  cbn [map insertAscending qinsert]. rewrite leb_Qle_bool.
  destruct (Qle_bool a q); [reflexivity|]. cbn [map]. rewrite IH. reflexivity.
Qed.

Lemma sortAscending_Fin (qs : list Q) :
  sortAscending (map Fin qs) = map Fin (qsort qs).
Proof.
  induction qs as [|q qs IH]; [reflexivity|].
  unfold sortAscending, qsort in *. cbn [map fold_right].
  rewrite IH. apply insertAscending_Fin.
Qed.

Lemma qinsert_In (a x : Q) (l : list Q) :
  In x (qinsert a l) -> x = a \/ In x l.
Proof.
  induction l as [|y l IH]; cbn [qinsert].
  - intros [H|[]]. left. symmetry. exact H.
  - destruct (Qle_bool a y).
    + intros [H|H]; [left; symmetry; exact H | right; exact H].
    + intros [H|H]; [right; left; exact H|].
      destruct (IH H) as [E|E]; [left; exact E | right; right; exact E].
Qed.

Lemma qsort_In (x : Q) (l : list Q) : In x (qsort l) -> In x l.
Proof.
  induction l as [|a l IH]; [intros []|].
  unfold qsort in *. cbn [fold_right]. intros H.
  destruct (qinsert_In _ _ _ H) as [E|E]; [left; symmetry; exact E|].
  right. apply IH, E.
Qed.

Lemma qinsert_count (f : Q -> bool) (a : Q) (l : list Q) :
  List.length (filter f (qinsert a l)) = List.length (filter f (a :: l)).
Proof.
  induction l as [|y l IH]; [reflexivity|].
  cbn [qinsert]. destruct (Qle_bool a y); [reflexivity|].
  cbn [filter] in *. destruct (f y), (f a); cbn [List.length] in *; lia.
Qed.

Lemma qsort_count (f : Q -> bool) (l : list Q) :
  List.length (filter f (qsort l)) = List.length (filter f l).
Proof.
  induction l as [|a l IH]; [reflexivity|].
  unfold qsort in *. cbn [fold_right]. rewrite qinsert_count.
  cbn [filter]. destruct (f a); cbn [List.length]; rewrite IH; reflexivity.
Qed.

Lemma qsort_length (l : list Q) : List.length (qsort l) = List.length l.
Proof.
  pose proof (qsort_count (fun _ => true) l) as H.
  rewrite !filter_true in H. exact H.
Qed.

Lemma qinsert_ascending (a : Q) (l : list Q) :
  ascending l -> ascending (qinsert a l).
Proof.
  induction l as [|y l IH]; intros Hl.
  - split; constructor.
  - cbn [qinsert]. destruct Hl as (Hy & Hl).
    destruct (Qle_bool a y) eqn:E.
    + apply Qle_bool_iff in E. split; [|split; assumption].
      constructor; [exact E|].
      eapply Forall_impl; [|exact Hy]. intros z Hz. cbv beta in *. lra.
    + assert (Hya : (y <= a)%Q).
      { apply Qlt_le_weak, Qnot_le_lt. intros H. apply Qle_bool_iff in H.
        congruence. }
      split; [|apply IH, Hl].
      apply Forall_forall. intros z Hz.
      destruct (qinsert_In _ _ _ Hz) as [->|Hin]; [exact Hya|].
      rewrite Forall_forall in Hy. apply Hy, Hin.
Qed.

Lemma qsort_ascending (l : list Q) : ascending (qsort l).
Proof.
  induction l as [|a l IH]; [exact I|].
  unfold qsort in *. cbn [fold_right]. apply qinsert_ascending, IH.
Qed.

Lemma ascending_split (l1 l2 : list Q) (m : Q) :
  ascending (l1 ++ m :: l2) ->
  Forall (fun x => (x <= m)%Q) l1 /\ Forall (fun x => (m <= x)%Q) l2.
Proof.
  induction l1 as [|x l1 IH]; cbn [app ascending].
  - intros (H & _). split; [constructor | exact H].
  - intros (Hx & Hrest). destruct (IH Hrest) as (H1 & H2).
    split; [|exact H2]. constructor; [|exact H1].
    rewrite Forall_forall in Hx. apply Hx, in_elt.
Qed.

Lemma filter_none (A : Type) (f : A -> bool) (l : list A) :
  Forall (fun x => f x = false) l -> filter f l = [].
Proof.
  induction 1 as [|x l Hx Hl IH]; [reflexivity|].
  cbn [filter]. rewrite Hx. exact IH.
Qed.

(** Around an element of an ascending list: nothing before it is above
    it, nothing after it is below it. *)
Lemma ascending_counts (l1 l2 : list Q) (m : Q) :
  ascending (l1 ++ m :: l2) ->
  (above m (l1 ++ m :: l2) <= List.length l2)%nat /\
  (below m (l1 ++ m :: l2) <= List.length l1)%nat.
Proof.
  intros H. destruct (ascending_split _ _ _ H) as (H1 & H2).
  unfold above, below. rewrite !filter_app. cbn [filter].
  assert (Hm : Qle_bool m m = true) by (apply Qle_bool_iff, Qle_refl).
  rewrite Hm. cbn [negb]. rewrite !length_app. split.
  - rewrite (filter_none (fun q => negb (Qle_bool q m)) (l := l1)).
    + cbn [List.length]. apply filter_length_le.
    + eapply Forall_impl; [|exact H1]. intros x Hx. cbv beta.
      apply Qle_bool_iff in Hx. rewrite Hx. reflexivity.
  - rewrite (filter_none (fun q => negb (Qle_bool m q)) (l := l2)).
    + cbn [List.length]. rewrite Nat.add_0_r. apply filter_length_le.
    + eapply Forall_impl; [|exact H2]. intros x Hx. cbv beta.
      apply Qle_bool_iff in Hx. rewrite Hx. reflexivity.
Qed.

Lemma medianOf_nonempty (xs : list num) :
  xs <> [] ->
  medianOf xs = nth (List.length xs / 2) (sortAscending xs) NaN.
Proof. destruct xs; [intros H; contradiction H; reflexivity | reflexivity]. Qed.

(** X23: the median that the export writes under the comparables and
    the precedents is one of the values, the one in the middle of the
    ascending order and the upper of the two middle ones when their
    number is even: fewer than half of the values are above it, at most
    half are below it.  Of two values it is the larger. *)
Theorem median_is_the_upper_middle (qs : list Q) :
  qs <> [] ->
  exists m,
    medianOf (map Fin qs) = Fin m /\ In m qs /\
    (2 * above m qs < List.length qs)%nat /\
    (2 * below m qs <= List.length qs)%nat.
Proof.
  intros Hne.
  set (n := List.length qs).
  assert (Hn : (0 < n)%nat).
  { subst n. destruct qs; [contradiction Hne; reflexivity | cbn; lia]. }
  assert (Hk : (n / 2 < n)%nat) by (apply Nat.div_lt; lia).
  assert (Hdiv : (n = 2 * (n / 2) + n mod 2)%nat) by apply Nat.div_mod_eq.
  assert (Hmod : (n mod 2 < 2)%nat) by (apply Nat.mod_upper_bound; lia).
  assert (Hlen : List.length (qsort qs) = n) by apply qsort_length.
  destruct (nth_split (qsort qs) 0%Q (n := (n / 2)%nat)) as (l1 & l2 & Hs & Hl1);
    [lia|].
  set (m := nth (n / 2) (qsort qs) 0%Q) in *.
  pose proof (qsort_ascending qs) as Hasc. rewrite Hs in Hasc.
  destruct (ascending_counts _ _ _ Hasc) as (Ha & Hb).
  rewrite <- Hs in Ha, Hb.
  unfold above, below in Ha, Hb. rewrite !qsort_count in Ha, Hb.
  assert (Hl2 : (List.length l1 + S (List.length l2) = n)%nat).
  { rewrite <- Hlen, Hs, length_app. reflexivity. }
  exists m. split; [|split; [|split]].
  - rewrite medianOf_nonempty
      by (intros E; apply map_eq_nil in E; contradiction).
    rewrite length_map, sortAscending_Fin. fold n.
    rewrite (nth_indep _ NaN (Fin 0)) by (rewrite length_map; lia).
    apply map_nth.
  - apply qsort_In. subst m. apply nth_In. lia.
  - unfold above. lia.
  - unfold below. lia.
Qed.

(** X23 at work on the two ratios 8 and 500. *)
Lemma median_witness :
  [8; 500]%Q <> [] /\
  exists m,
    medianOf (map Fin [8; 500]%Q) = Fin m /\ In m [8; 500]%Q /\
    (2 * above m [8; 500]%Q < List.length [8; 500]%Q)%nat /\
    (2 * below m [8; 500]%Q <= List.length [8; 500]%Q)%nat.
Proof.
  split; [discriminate|].
  apply median_is_the_upper_middle. discriminate.
Defined.

(** ** The export route: the comparables sheet and the engine *)

Lemma complete_peer_ratios (c : TradingCompEntry) :
  complete_peer c ->
  sheetEvEbitdaOf c = evEbitdaOf c /\ positive (evEbitdaOf c) = positiveFinite (evEbitdaOf c) /\
  sheetPeOf c = peOf c /\ positive (peOf c) = positiveFinite (peOf c).
Proof.
  intros (e & ev & n & mc & He & He0 & Hev & Hn & Hn0 & Hmc).
  unfold sheetEvEbitdaOf, evEbitdaOf, sheetPeOf, peOf, positive, positiveFinite.
  rewrite He, Hev, Hn, Hmc.
  change (safeNumber (Fin e) (Fin 1)) with (Fin e).
  change (safeNumber (Fin ev) (Fin 0)) with (Fin ev).
  change (safeNumber (Fin n) (Fin 1)) with (Fin n).
  change (safeNumber (Fin mc) (Fin 0)) with (Fin mc).
  replace (Fin e >? Fin 0) with true by (symmetry; apply ltb_Fin, He0).
  replace (Fin n >? Fin 0) with true by (symmetry; apply ltb_Fin, Hn0).
  replace (num_neqb (Fin e) (Fin 0)) with true.
  replace (num_neqb (Fin n) (Fin 0)) with true.
  - rewrite !div_Fin by lra. repeat split.
  - symmetry. apply Bool.negb_true_iff, Bool.not_true_iff_false.
    intros H. apply eqb_Fin in H. lra.
  - symmetry. apply Bool.negb_true_iff, Bool.not_true_iff_false.
    intros H. apply eqb_Fin in H. lra.
Qed.

Lemma complete_peers_lists (comps : list TradingCompEntry) :
  Forall complete_peer comps ->
  sheetEvEbitdas comps = evEbitdas comps /\ sheetPes comps = pes comps.
Proof.
  unfold sheetEvEbitdas, evEbitdas, sheetPes, pes.
  induction 1 as [|c comps Hc Hcomps (IH1 & IH2)]; [split; reflexivity|].
  destruct (complete_peer_ratios Hc) as (E1 & P1 & E2 & P2).
  cbn [map filter]. rewrite E1, P1, E2, P2, IH1, IH2. split; reflexivity.
Qed.

(** X24: when every peer has its four figures entered, with EBITDA and
    net income positive, the averages on the "Trading Comps" sheet of
    the export are the averages that [calculateTradingComps] returns. *)
Theorem sheet_averages_agree_on_complete_peers model p ps :
  tradingComps model <> [] ->
  Forall complete_peer (tradingComps model) ->
  exists s,
    compsSheet model (p :: ps) = Some s /\
    sheet_avgEvEbitda s = avgEvEbitda (calculateTradingComps model (p :: ps)) /\
    sheet_avgPe s = avgPe (calculateTradingComps model (p :: ps)).
Proof.
  intros Hne Hall. unfold compsSheet.
  destruct (tradingComps model) as [|c cs] eqn:Hc; [contradiction Hne; reflexivity|].
  eexists. split; [reflexivity|]. cbn [sheet_avgEvEbitda sheet_avgPe].
  destruct (calculateTradingComps_averages model p ps Hc) as (-> & ->).
  destruct (complete_peers_lists Hall) as (-> & ->).
  unfold evEbitdas, pes.
  destruct (finite_inv _ (average_filtered_finite (map evEbitdaOf (c :: cs))))
    as (x & ->).
  destruct (finite_inv _ (average_filtered_finite (map peOf (c :: cs))))
    as (y & ->).
  split; reflexivity.
Qed.

(** X25: among complete peers, a peer whose EBITDA is absent and whose
    enterprise value is positive is left out of the EV/EBITDA multiples
    of the "Trading Comps" sheet, while [calculateTradingComps] keeps it
    with its enterprise value divided by one: the two lists differ by
    that one entry. *)
Theorem sheet_and_engine_differ_on_absent_ebitda pre c post (ev : Q) :
  Forall complete_peer pre -> Forall complete_peer post ->
  isFinite (comp_ebitda c) = false -> comp_ev c = Fin ev -> (0 < ev)%Q ->
  sheetEvEbitdas (pre ++ c :: post) = sheetEvEbitdas pre ++ sheetEvEbitdas post /\
  evEbitdas (pre ++ c :: post)
  = sheetEvEbitdas pre ++ Fin ev / Fin 1 :: sheetEvEbitdas post.
Proof.
  intros Hpre Hpost Hn Hev Hpos.
  destruct (complete_peers_lists Hpre) as (Epre & _).
  destruct (complete_peers_lists Hpost) as (Epost & _).
  split.
  - assert (E : positive (sheetEvEbitdaOf c) = false).
    { unfold sheetEvEbitdaOf. rewrite Hev.
      destruct (comp_ebitda c); [discriminate Hn | reflexivity ..]. }
    unfold sheetEvEbitdas. rewrite map_app, filter_app.
    cbn [map filter]. rewrite E. reflexivity.
  - rewrite Epre, Epost. unfold evEbitdas.
    apply filter_map_middle; [apply evEbitdaOf_absent; assumption|].
    apply positiveFinite_Fin, div_one_pos, Hpos.
Qed.

(** X24 at work on the scenario with the complete peer. *)
Lemma sheet_averages_witness :
  (tradingComps one_peer_model <> [] /\
   Forall complete_peer (tradingComps one_peer_model)) /\
  exists s,
    compsSheet one_peer_model (scenario_first :: scenario_rest) = Some s /\
    sheet_avgEvEbitda s
    = avgEvEbitda (calculateTradingComps one_peer_model
                     (scenario_first :: scenario_rest)) /\
    sheet_avgPe s
    = avgPe (calculateTradingComps one_peer_model
               (scenario_first :: scenario_rest)).
Proof.
  assert (H1 : tradingComps one_peer_model <> []) by discriminate.
  assert (H2 : Forall complete_peer (tradingComps one_peer_model)).
  { repeat constructor. exists 100%Q, 800%Q, 40%Q, 600%Q.
    repeat split; reflexivity. }
  split; [split; assumption|].
  exact (sheet_averages_agree_on_complete_peers one_peer_model scenario_first
           scenario_rest H1 H2).
Defined.

(** X25 at work: next to the complete peer, the peer without EBITDA
    and with an enterprise value of 500. *)
Lemma sheet_and_engine_differ_witness :
  (Forall complete_peer [full_peer] /\ Forall complete_peer [] /\
   isFinite (comp_ebitda bare_peer) = false /\ comp_ev bare_peer = Fin 500 /\
   (0 < 500)%Q) /\
  sheetEvEbitdas ([full_peer] ++ bare_peer :: [])
  = sheetEvEbitdas [full_peer] ++ sheetEvEbitdas [] /\
  evEbitdas ([full_peer] ++ bare_peer :: [])
  = sheetEvEbitdas [full_peer] ++ Fin 500 / Fin 1 :: sheetEvEbitdas [].
Proof.
  assert (H : Forall complete_peer [full_peer]).
  { repeat constructor. exists 100%Q, 800%Q, 40%Q, 600%Q.
    repeat split; reflexivity. }
  split; [conjuncts; try reflexivity; [exact H | constructor]|].
  exact (sheet_and_engine_differ_on_absent_ebitda (pre := [full_peer])
           bare_peer (post := []) H (Forall_nil _) eq_refl eq_refl eq_refl).
Defined.

(** ** The export route: the cover sheet *)

Section Cover.

Variable pow_rest : num -> num -> num.

(** X26: the "implied EV/EBITDA" of the cover sheet is the implied
    multiple of the valuation when the EBITDA of the last projected year
    is positive, and zero when it is zero or negative, where the
    valuation divides by one or returns a negative multiple. *)
Theorem cover_multiple_is_implied_multiple_or_zero model p ps (e : Q) :
  ebitda (last (p :: ps) p) = Fin e ->
  let v := fst (calculateValuation pow_rest model (p :: ps)) in
  let arr := snd (calculateValuation pow_rest model (p :: ps)) in
  coverEvEbitdaImplied v arr
  == (if Fin e >? Fin 0 then impliedMultiple v else Fin 0).
Proof.
  intros He v arr. subst v arr. rewrite calculateValuation_snd.
  pose proof (last_ebitda_after_discount pow_rest model p ps) as Hl.
  rewrite (discountLoop_cons pow_rest _ _ 0 p ps (Fin 0)) in Hl |- *.
  cbn [fst] in Hl |- *. unfold coverEvEbitdaImplied, lastOf in *.
  rewrite (last_default_irrelevant _ _ _ p), Hl, He.
  destruct (enterpriseValue_finite pow_rest model (p :: ps)) as (x & Hx).
  destruct (Fin e >? Fin 0) eqn:E.
  - apply ltb_Fin in E.
    assert (Hnz : ~ (e == 0)%Q) by lra.
    rewrite (implied_multiple_nonzero_ebitda pow_rest model p ps He Hnz).
    rewrite Hx.
    assert (Ht : or_else (Fin e) (Fin 0) = Fin e).
    { unfold or_else, truthy.
      destruct (Qeq_bool e 0) eqn:E0; [|reflexivity].
      apply Qeq_bool_iff in E0. contradiction. }
    rewrite Ht.
    replace (Fin e >? Fin 0) with true by (symmetry; apply ltb_Fin, E).
    rewrite div_Fin by exact Hnz. rewrite Bool.andb_true_r.
    unfold truthy. destruct (Qeq_bool x 0) eqn:Ex; cbn [negb].
    + apply Qeq_bool_iff in Ex. apply eqb_Fin. rewrite Ex. field. exact Hnz.
    + apply eqb_Fin. reflexivity.
  - apply ltb_Fin_false in E.
    assert (Ht : (or_else (Fin e) (Fin 0) >? Fin 0) = false).
    { unfold or_else, truthy.
      destruct (Qeq_bool e 0); cbn [negb]; apply ltb_Fin_false; lra. }
    rewrite Ht, Bool.andb_false_r. reflexivity.
Qed.

End Cover.

(** X26 at work on the scenario, where the last EBITDA is 524,702. *)
Lemma cover_multiple_witness :
  ebitda (last (scenario_first :: scenario_rest) scenario_first) = Fin 524702 /\
  let v := fst (calculateValuation pow_unknown scenario_model
                  (scenario_first :: scenario_rest)) in
  let arr := snd (calculateValuation pow_unknown scenario_model
                    (scenario_first :: scenario_rest)) in
  coverEvEbitdaImplied v arr
  == (if Fin 524702 >? Fin 0 then impliedMultiple v else Fin 0).
Proof.
  split; [reflexivity|].
  apply (cover_multiple_is_implied_multiple_or_zero pow_unknown scenario_model
           scenario_first scenario_rest (e := 524702)).
  reflexivity.
Defined.

(** ** The portfolio statistics *)




(** ** generateExecutiveInsights: the top value driver *)

Lemma top_of_fold (rest : list ModelMetric) :
  Forall finite_metric rest ->
  forall first,
    finite_metric first ->
    let t := fold_left
               (fun a b =>
                  if mm_revenue a * mm_growth a >? mm_revenue b * mm_growth b
                  then a else b)
               rest first in
    finite_metric t /\ In t (first :: rest) /\
    Forall (fun m => weightOf m <= weightOf t) (first :: rest).
Proof.
  induction 1 as [|b rest Hb Hrest IH]; intros a Ha.
  - cbn [fold_left]. split; [exact Ha|]. split; [left; reflexivity|].
    constructor; [|constructor].
    destruct Ha as (Hr & Hg). unfold weightOf.
    destruct (finite_inv _ Hr) as (r & ->). destruct (finite_inv _ Hg) as (g & ->).
    apply le_Fin, Qle_refl.
  - cbn [fold_left].
    assert (Hw : forall m, finite_metric m -> exists w, weightOf m = Fin w).
    { intros m (Hr & Hg). unfold weightOf.
      destruct (finite_inv _ Hr) as (r & ->).
      destruct (finite_inv _ Hg) as (g & ->). rewrite mul_Fin. eauto. }
    destruct (Hw a Ha) as (wa & Ea). destruct (Hw b Hb) as (wb & Eb).
    fold (weightOf a). fold (weightOf b). rewrite Ea, Eb.
    destruct (Fin wa >? Fin wb) eqn:E.
    + apply ltb_Fin in E.
      destruct (IH a Ha) as (Ht & Hin & Hall). cbv zeta in *.
      split; [exact Ht|]. split.
      * destruct Hin as [<-|Hin]; [left; reflexivity | right; right; exact Hin].
      * inversion Hall as [|? ? Hat Hrest']; subst.
        constructor; [exact Hat|]. constructor; [|exact Hrest'].
        destruct (Hw _ Ht) as (wt & Et). rewrite Et, Ea, Eb in *.
        apply le_Fin in Hat. apply le_Fin. lra.
    + apply ltb_Fin_false in E.
      destruct (IH b Hb) as (Ht & Hin & Hall). cbv zeta in *.
      split; [exact Ht|]. split; [right; exact Hin|].
      inversion Hall as [|? ? Hbt Hrest']; subst.
      constructor; [|exact Hall].
      destruct (Hw _ Ht) as (wt & Et). rewrite Et, Ea, Eb in *.
      apply le_Fin in Hbt. apply le_Fin. lra.
Qed.

(** X28: among models whose revenue and growth rate are numbers, the
    model that the insights name as the top value driver is one of the
    models, and no model has a larger revenue times growth rate. *)
Theorem top_model_has_largest_weight (models : list Model) :
  models <> [] ->
  Forall finite_metric (map metricOf models) ->
  exists t,
    topModel models = Some t /\ In (mm_model t) models /\
    Forall (fun m => weightOf (metricOf m) <= weightOf t) models.
Proof.
  intros Hne Hall. unfold topModel.
  destruct models as [|m models]; [contradiction Hne; reflexivity|].
  cbn [map] in *. inversion Hall as [|? ? Hm Hrest]; subst.
  destruct (top_of_fold Hrest Hm) as (_ & Hin & Hmax). cbv zeta in *.
  eexists. split; [reflexivity|]. split.
  - change (metricOf m :: map metricOf models)
      with (map metricOf (m :: models)) in Hin.
    apply in_map_iff in Hin. destruct Hin as (m0 & <- & Hin0). exact Hin0.
  - change (metricOf m :: map metricOf models)
      with (map metricOf (m :: models)) in Hmax.
    rewrite Forall_map in Hmax. exact Hmax.
Qed.

(** X28 at work on the scenario and the scenario at 5% growth. *)
Lemma top_model_witness :
  ([scenario_model; slow_model] <> [] /\
   Forall finite_metric (map metricOf [scenario_model; slow_model])) /\
  exists t,
    topModel [scenario_model; slow_model] = Some t /\
    In (mm_model t) [scenario_model; slow_model] /\
    Forall (fun m => weightOf (metricOf m) <= weightOf t)
           [scenario_model; slow_model].
Proof.
  assert (H1 : [scenario_model; slow_model] <> []) by discriminate.
  assert (H2 : Forall finite_metric (map metricOf [scenario_model; slow_model])).
  { repeat constructor. }
  split; [split; assumption|].
  exact (top_model_has_largest_weight H1 H2).
Defined.
